(** * Continuous-time Gaussian diffusion (simple_diffusion.py)

    A shallow embedding of the diffusion core of
    [denoising_diffusion_pytorch/simple_diffusion.py]: the log-SNR
    schedules, the forward corruption [q_sample], the posterior
    estimator [p_mean_variance], the ancestral sampler and the training
    loss.

    Conventions of the embedding.
    - Scalars are real numbers: torch's floating-point arithmetic is
      idealised to exact arithmetic on [R] (no rounding, no overflow,
      no NaN).  Torch and [R] disagree where a function leaves its
      domain: the square root of a negative number and the mean of an
      empty tensor are NaN in torch and 0 in [R].  The square roots of
      the coefficients are always taken of a sigmoid, which is positive;
      the square root of the posterior variance is taken inside its
      domain along the sampling chain whenever the schedule is
      non-increasing (see [sample_shape_and_range]), and it is
      negative on some schedules the constructor accepts (see
      [sample_sqrt_of_negative_variance]); the loss is a mean over a
      batch that the statements about its value take to be non-empty.
      The cosine schedule is exact in [R] for any bounds, while in
      float32 the argument of the tangent passes pi/2 for a lower
      bound below about -36; its closed form and its range on [0,1]
      are stated for the default bounds -15 and 15.
    - A tensor is a shape together with a function from multi-indices
      to scalars; only the entries whose index lies inside the shape
      are meaningful.  Zero-dimensional tensors (a time, a log-SNR
      value, the coefficients derived from it) are plain scalars.
    - Elementwise binary operators follow torch's broadcasting rules
      and raise when the shapes are incompatible.
    - The global random generator is a tape of draws with a cursor;
      Python exceptions are an error result that leaves the generator
      where it was when the exception was raised. *)

From Stdlib Require Import Reals Lra Lia List Arith Bool.
Import ListNotations.

Open Scope R_scope.

(** ** Scalar helpers *)

(** [torch.sigmoid], pointwise. *)
Definition sigmoid (x : R) : R := 1 / (1 + exp (- x)).

(** [torch.special.expm1], pointwise. *)
Definition expm1 (x : R) : R := exp x - 1.

(** [Tensor.clamp(min = lo)] and [Tensor.clamp(lo, hi)], pointwise. *)
Definition clamp_min (lo x : R) : R := Rmax x lo.
Definition clamp (lo hi x : R) : R := Rmin (Rmax x lo) hi.

(** [def log(t, eps = 1e-20): return torch.log(t.clamp(min = eps))] *)
Definition log_eps : R := 1e-20.
Definition log (t : R) : R := ln (clamp_min log_eps t).

(** ** Errors *)

Inductive error : Type :=
| ValueError        (* tuple unpacking of the wrong arity, math domain error *)
| AssertionError
| ZeroDivisionError
| IndexError
| BroadcastError.   (* RuntimeError: tensor sizes do not match *)

Inductive result (A : Type) : Type :=
| Ok (a : A)
| Raise (e : error).
Arguments Ok {A} a.
Arguments Raise {A} e.

Definition rbind {A B} (r : result A) (k : A -> result B) : result B :=
  match r with
  | Ok a => k a
  | Raise e => Raise e
  end.

(** ** Log-SNR schedules *)

Definition schedule : Type := R -> R.

(** [logsnr_schedule_cosine(t, logsnr_min = -15, logsnr_max = 15)] *)
Definition logsnr_schedule_cosine_with (logsnr_min logsnr_max : R) : schedule :=
  fun t =>
    let t_min := atan (exp (-0.5 * logsnr_max)) in
    let t_max := atan (exp (-0.5 * logsnr_min)) in
    -2 * log (tan (t_min + t * (t_max - t_min))).

Definition logsnr_schedule_cosine : schedule :=
  logsnr_schedule_cosine_with (-15) 15.

(** The two angles of the default schedule, and the argument handed to
    [torch.tan] at time [t]. *)
Definition t_min : R := atan (exp (-0.5 * 15)).
Definition t_max : R := atan (exp (-0.5 * -15)).
Definition cosine_arg (t : R) : R := t_min + t * (t_max - t_min).

(** Python's [/] on numbers and [math.log]. *)
Definition py_div (a b : R) : result R :=
  if Req_dec_T b 0 then Raise ZeroDivisionError else Ok (a / b).

Definition math_log (x : R) : result R :=
  if Rlt_dec 0 x then Ok (ln x) else Raise ValueError.

(** [logsnr_schedule_shifted(fn, image_d, noise_d)]: the shift is
    computed once, when the schedule is built. *)
Definition logsnr_schedule_shifted (fn : schedule) (image_d noise_d : R)
  : result schedule :=
  rbind (py_div noise_d image_d) (fun q =>
  rbind (math_log q) (fun l =>
  let shift := 2 * l in
  Ok (fun t => fn t + shift))).

(** [logsnr_schedule_interpolated(fn, image_d, noise_d_low, noise_d_high)] *)
Definition logsnr_schedule_interpolated (fn : schedule)
  (image_d noise_d_low noise_d_high : R) : result schedule :=
  rbind (logsnr_schedule_shifted fn image_d noise_d_low) (fun logsnr_low_fn =>
  rbind (logsnr_schedule_shifted fn image_d noise_d_high) (fun logsnr_high_fn =>
  Ok (fun t => t * logsnr_low_fn t + (1 - t) * logsnr_high_fn t))).

(** ** Tensors *)

Record tensor : Type := mkTensor {
  shape : list nat;
  entry : list nat -> R
}.

Definition numel (s : list nat) : nat := fold_right Nat.mul 1%nat s.

(** [idx] addresses an element of a tensor of shape [s]. *)
Definition in_shape (idx s : list nat) : Prop :=
  Forall2 (fun i d => (i < d)%nat) idx s.

(** Row-major position of an index, and the list of all indices. *)
Fixpoint ravel (s idx : list nat) : nat :=
  match s, idx with
  | _ :: s', i :: idx' => (i * numel s' + ravel s' idx')%nat
  | _, _ => 0%nat
  end.

Fixpoint indices (s : list nat) : list (list nat) :=
  match s with
  | [] => [[]]
  | d :: s' => flat_map (fun i => map (cons i) (indices s')) (seq 0 d)
  end.

Definition tmap (f : R -> R) (t : tensor) : tensor :=
  {| shape := shape t; entry := fun idx => f (entry t idx) |}.

(** A tensor of shape [s] filled with [v] ([einops.repeat] of a scalar). *)
Definition tfull (s : list nat) (v : R) : tensor :=
  {| shape := s; entry := fun _ => v |}.

(** *** Broadcasting *)

Definition pad_left (n : nat) (s : list nat) : list nat :=
  repeat 1%nat (n - length s) ++ s.

Definition bdim (x y : nat) : option nat :=
  if (x =? y)%nat then Some x
  else if (x =? 1)%nat then Some y
  else if (y =? 1)%nat then Some x
  else None.

Fixpoint bdims (a b : list nat) : option (list nat) :=
  match a, b with
  | [], [] => Some []
  | x :: a', y :: b' =>
      match bdim x y, bdims a' b' with
      | Some d, Some r => Some (d :: r)
      | _, _ => None
      end
  | _, _ => None
  end.

(** [torch.broadcast_shapes]: shapes are aligned on their last
    dimension; two sizes are compatible when equal or when one is 1. *)
Definition broadcast_shapes (a b : list nat) : option (list nat) :=
  let n := Nat.max (length a) (length b) in
  bdims (pad_left n a) (pad_left n b).

(** The index read in an operand of shape [s] for the output index
    [idx]: leading output dimensions are dropped and a dimension of
    size 1 is always read at 0. *)
Definition bidx (s idx : list nat) : list nat :=
  map (fun di => if (fst di =? 1)%nat then 0%nat else snd di)
      (combine s (skipn (length idx - length s) idx)).

(** An elementwise binary operator ([+], [-], [*] between tensors). *)
Definition tbin (f : R -> R -> R) (a b : tensor) : result tensor :=
  match broadcast_shapes (shape a) (shape b) with
  | None => Raise BroadcastError
  | Some s =>
      Ok {| shape := s;
            entry := fun idx =>
              f (entry a (bidx (shape a) idx)) (entry b (bidx (shape b) idx)) |}
  end.

Definition tadd := tbin Rplus.
Definition tsub := tbin Rminus.
Definition tmul := tbin Rmult.

(** [Tensor.sum] and [Tensor.mean] over all elements. *)
Definition tsum (t : tensor) : R :=
  fold_right Rplus 0 (map (entry t) (indices (shape t))).

Definition tmean (t : tensor) : R := tsum t / INR (numel (shape t)).

(** [F.mse_loss(input, target)] with the default mean reduction. *)
Definition mse_loss (input target : tensor) : result R :=
  rbind (tbin (fun a b => (a - b) * (a - b)) input target) (fun sq =>
  Ok (tmean sq)).

(** [normalize_to_neg_one_to_one] and [unnormalize_to_zero_to_one] *)
Definition normalize_to_neg_one_to_one (img : tensor) : tensor :=
  tmap (fun v => v * 2 - 1) img.

Definition unnormalize_to_zero_to_one (t : tensor) : tensor :=
  tmap (fun v => (v + 1) * 0.5) t.

(** [right_pad_dims_to(x, t)]: [t] viewed with trailing dimensions of
    size 1 until it has the rank of [x]. *)
Definition right_pad_dims_to (x t : tensor) : tensor :=
  let padding_dims := (length (shape x) - length (shape t))%nat in
  if (padding_dims =? 0)%nat then t
  else {| shape := shape t ++ repeat 1%nat padding_dims;
          entry := fun idx => entry t (firstn (length (shape t)) idx) |}.

(** ** The random generator *)

Record rng : Type := mkRng {
  tape : nat -> R;
  cursor : nat
}.

(** Drawing a tensor of shape [s] consumes [numel s] values of the tape. *)
Definition draw (s : list nat) (g : rng) : tensor * rng :=
  ({| shape := s; entry := fun idx => tape g (cursor g + ravel s idx) |},
   {| tape := tape g; cursor := cursor g + numel s |}).

(** [torch.randn(shape)], [torch.randn_like(x)] and
    [torch.zeros(shape).float().uniform_(0, 1)]; the distribution of the
    draws is not represented. *)
Definition randn (s : list nat) (g : rng) : tensor * rng := draw s g.
Definition randn_like (x : tensor) (g : rng) : tensor * rng := draw (shape x) g.
Definition uniform_ (s : list nat) (g : rng) : tensor * rng := draw s g.

(** Computations that read the generator and may raise. *)
Definition M (A : Type) : Type := rng -> result A * rng.

Definition ret {A} (a : A) : M A := fun g => (Ok a, g).
Definition raise {A} (e : error) : M A := fun g => (Raise e, g).
Definition lift {A} (r : result A) : M A := fun g => (r, g).
Definition rand {A} (f : rng -> A * rng) : M A :=
  fun g => let (a, g') := f g in (Ok a, g').
Definition bind {A B} (m : M A) (k : A -> M B) : M B :=
  fun g =>
    match m g with
    | (Ok a, g') => k a g'
    | (Raise e, g') => (Raise e, g')
    end.

Declare Scope diffusion_scope.
Notation "x <- m ;; k" := (bind m (fun x => k))
  (at level 61, m at next level, right associativity) : diffusion_scope.
Notation "' p <- m ;; k" := (bind m (fun p => k))
  (at level 61, p pattern, m at next level, right associativity) : diffusion_scope.
Open Scope diffusion_scope.

(** ** The diffusion object *)

(** [pred_objective]: ['v'] or ['eps'] (the constructor asserts that it
    is one of the two). *)
Inductive objective : Type := ObjV | ObjEps.

(** The denoiser: a sample and a tensor of log-SNR values, one per
    batch element, to a prediction. *)
Definition denoiser : Type := tensor -> tensor -> tensor.

Record GaussianDiffusion : Type := mkGaussianDiffusion {
  model : denoiser;
  channels : nat;
  image_size : nat;
  pred_objective : objective;
  log_snr : schedule;
  num_sample_steps : nat;
  clip_sample_denoised : bool
}.

Definition exists_ {A} (val : option A) : bool :=
  match val with Some _ => true | None => false end.

(** [GaussianDiffusion.__init__] *)
Definition init (model : denoiser) (image_size channels : nat)
  (pred_objective : objective) (noise_schedule : schedule)
  (noise_d noise_d_low noise_d_high : option R)
  (num_sample_steps : nat) (clip_sample_denoised : bool)
  : result GaussianDiffusion :=
  if exists_ noise_d && exists_ noise_d_low && exists_ noise_d_high
  then Raise AssertionError
  else
    rbind (match noise_d with
           | Some nd => logsnr_schedule_shifted noise_schedule (INR image_size) nd
           | None => Ok noise_schedule
           end) (fun log_snr1 =>
    rbind (if exists_ noise_d_low || exists_ noise_d_high
           then match noise_d_low, noise_d_high with
                | Some lo, Some hi =>
                    logsnr_schedule_interpolated log_snr1 (INR image_size) lo hi
                | _, _ => Raise AssertionError
                end
           else Ok log_snr1) (fun log_snr2 =>
    Ok {| model := model;
          channels := channels;
          image_size := image_size;
          pred_objective := pred_objective;
          log_snr := log_snr2;
          num_sample_steps := num_sample_steps;
          clip_sample_denoised := clip_sample_denoised |})).

(** [x.shape[0]] *)
Definition shape0 (x : tensor) : result nat :=
  match shape x with
  | b :: _ => Ok b
  | [] => Raise IndexError
  end.

(** [GaussianDiffusion.p_mean_variance]; [time] and [time_next] are
    zero-dimensional. *)
Definition p_mean_variance (d : GaussianDiffusion) (x : tensor)
  (time time_next : R) : result (tensor * R) :=
  let self_log_snr := d.(log_snr) in
  let log_snr := self_log_snr time in
  let log_snr_next := self_log_snr time_next in
  let c := - expm1 (log_snr - log_snr_next) in
  let squared_alpha := sigmoid log_snr in
  let squared_alpha_next := sigmoid log_snr_next in
  let squared_sigma := sigmoid (- log_snr) in
  let squared_sigma_next := sigmoid (- log_snr_next) in
  let alpha := sqrt squared_alpha in
  let sigma := sqrt squared_sigma in
  let alpha_next := sqrt squared_alpha_next in
  rbind (shape0 x) (fun b =>
  let batch_log_snr := tfull [b] log_snr in
  let pred := d.(model) x batch_log_snr in
  rbind (match d.(pred_objective) with
         | ObjV =>
             tsub (tmap (fun v => alpha * v) x) (tmap (fun v => sigma * v) pred)
         | ObjEps =>
             rbind (tsub x (tmap (fun v => sigma * v) pred)) (fun num =>
             Ok (tmap (fun v => v / alpha) num))
         end) (fun x_start =>
  let x_start := tmap (clamp (-1) 1) x_start in
  rbind (tadd (tmap (fun v => v * (1 - c) / alpha) x)
              (tmap (fun v => c * v) x_start)) (fun blend =>
  let model_mean := tmap (fun v => alpha_next * v) blend in
  let posterior_variance := squared_sigma_next * c in
  Ok (model_mean, posterior_variance)))).

(** [GaussianDiffusion.p_sample] *)
Definition p_sample (d : GaussianDiffusion) (x : tensor)
  (time time_next : R) : M tensor :=
  match shape x with
  | [] => raise ValueError          (* batch, *_, device = *x.shape, x.device *)
  | _ :: _ =>
      '(model_mean, model_variance) <- lift (p_mean_variance d x time time_next) ;;
      if Req_dec_T time_next 0 then ret model_mean
      else
        noise <- rand (randn_like x) ;;
        lift (tadd model_mean (tmap (fun v => sqrt model_variance * v) noise))
  end.

(** [torch.linspace(start, stop, steps)[i]] *)
Definition linspace (start stop : R) (steps : nat) (i : nat) : R :=
  start + INR i * ((stop - start) / INR (steps - 1)).

(** The [for] loop of [p_sample_loop] over the indices [ixs]. *)
Fixpoint p_sample_steps (d : GaussianDiffusion) (steps : nat -> R)
  (ixs : list nat) (img : tensor) : M tensor :=
  match ixs with
  | [] => ret img
  | i :: ixs' =>
      let times := steps i in
      let times_next := steps (i + 1)%nat in
      img' <- p_sample d img times times_next ;;
      p_sample_steps d steps ixs' img'
  end.

(** [GaussianDiffusion.p_sample_loop] *)
Definition p_sample_loop (d : GaussianDiffusion) (shape : list nat) : M tensor :=
  match shape with
  | [] => raise IndexError          (* batch = shape[0] *)
  | _ :: _ =>
      img <- rand (randn shape) ;;
      let steps := linspace 1 0 (d.(num_sample_steps) + 1) in
      img <- p_sample_steps d steps (seq 0 d.(num_sample_steps)) img ;;
      let img := tmap (clamp (-1) 1) img in
      let img := unnormalize_to_zero_to_one img in
      ret img
  end.

(** [GaussianDiffusion.sample] *)
Definition sample (d : GaussianDiffusion) (batch_size : nat) : M tensor :=
  p_sample_loop d [batch_size; d.(channels); d.(image_size); d.(image_size)].

(** [default(noise, lambda: torch.randn_like(x_start))] *)
Definition default_noise (noise : option tensor) (x_start : tensor) : M tensor :=
  match noise with
  | Some n => ret n
  | None => rand (randn_like x_start)
  end.

(** [GaussianDiffusion.q_sample] *)
Definition q_sample (d : GaussianDiffusion) (x_start times : tensor)
  (noise : option tensor) : M (tensor * tensor) :=
  noise <- default_noise noise x_start ;;
  let log_snr := tmap d.(log_snr) times in
  let log_snr_padded := right_pad_dims_to x_start log_snr in
  let alpha := tmap (fun l => sqrt (sigmoid l)) log_snr_padded in
  let sigma := tmap (fun l => sqrt (sigmoid (- l))) log_snr_padded in
  x_noised <- lift (rbind (tmul x_start alpha) (fun xa =>
                    rbind (tmul noise sigma) (fun ns =>
                    tadd xa ns))) ;;
  ret (x_noised, log_snr).

(** [GaussianDiffusion.p_losses] *)
Definition p_losses (d : GaussianDiffusion) (x_start times : tensor)
  (noise : option tensor) : M R :=
  noise <- default_noise noise x_start ;;
  '(x, log_snr) <- q_sample d x_start times (Some noise) ;;
  let model_out := d.(model) x log_snr in
  target <- lift (match d.(pred_objective) with
                  | ObjV =>
                      let padded_log_snr := right_pad_dims_to x log_snr in
                      let alpha := tmap (fun l => sqrt (sigmoid l)) padded_log_snr in
                      let sigma := tmap (fun l => sqrt (sigmoid (- l))) padded_log_snr in
                      rbind (tmul alpha noise) (fun an =>
                      rbind (tmul sigma x_start) (fun sx =>
                      tsub an sx))
                  | ObjEps => Ok noise
                  end) ;;
  lift (mse_loss model_out noise).

(** [GaussianDiffusion.forward] *)
Definition forward (d : GaussianDiffusion) (img : tensor)
  (noise : option tensor) : M R :=
  match shape img with
  | [b; c; h; w] =>
      let img_size := d.(image_size) in
      if (h =? img_size)%nat && (w =? img_size)%nat then
        let img := normalize_to_neg_one_to_one img in
        b0 <- lift (shape0 img) ;;
        times <- rand (uniform_ [b0]) ;;
        p_losses d img times noise
      else raise AssertionError
  | _ => raise ValueError           (* b, c, h, w, ... = *img.shape, ... *)
  end.

(** A schedule that never increases along [0,1]. *)
Definition nonincreasing_on_unit (f : schedule) : Prop :=
  forall t1 t2 : R, 0 <= t1 -> t1 <= t2 -> t2 <= 1 -> f t2 <= f t1.

(** The object that [init] builds for [image_size = 64], three
    channels, the velocity objective and the cosine schedule interpolated
    between [noise_d_low = lo] and [noise_d_high = hi]. *)
Definition interpolated_diffusion (m : denoiser) (lo hi : R) : GaussianDiffusion :=
  {| model := m; channels := 3; image_size := 64; pred_objective := ObjV;
     log_snr := fun t =>
       t * (logsnr_schedule_cosine t + 2 * ln (lo / INR 64))
       + (1 - t) * (logsnr_schedule_cosine t + 2 * ln (hi / INR 64));
     num_sample_steps := 500;
     clip_sample_denoised := true |}.

(** The counterexample to C4: [noise_d_low = 2^30], [noise_d_high = 64]. *)
Definition steep_diffusion (m : denoiser) : GaussianDiffusion :=
  interpolated_diffusion m 1073741824 64.

(** ** Normalisation layers of the denoiser *)

(** The sum of [f 0 .. f (d - 1)], the mean of a row and its biased
    variance ([unbiased = False]). *)
Definition sum_upto (d : nat) (f : nat -> R) : R :=
  fold_right Rplus 0 (map f (seq 0 d)).

Definition row_mean (d : nat) (f : nat -> R) : R := sum_upto d f / INR d.

Definition row_var (d : nat) (f : nat -> R) : R :=
  sum_upto d (fun j => (f j - row_mean d f) ^ 2) / INR d.

(** The index [idx] with its [k]-th component replaced by [v]. *)
Definition set_nth (k v : nat) (idx : list nat) : list nat :=
  firstn k idx ++ v :: skipn (S k) idx.

(** [torch.mean(t, dim = k, keepdim = True)] and
    [torch.var(t, dim = k, unbiased = False, keepdim = True)] along an
    axis [k] of [t]. *)
Definition reduce_mean (k : nat) (t : tensor) : tensor :=
  {| shape := set_nth k 1 (shape t);
     entry := fun idx =>
       row_mean (nth k (shape t) 0%nat) (fun j => entry t (set_nth k j idx)) |}.

Definition reduce_var (k : nat) (t : tensor) : tensor :=
  {| shape := set_nth k 1 (shape t);
     entry := fun idx =>
       row_var (nth k (shape t) 0%nat) (fun j => entry t (set_nth k j idx)) |}.

(** The reductions along [dim = -1]; a zero-dimensional tensor is its
    own mean and has variance zero. *)
Definition mean_last (t : tensor) : tensor :=
  match shape t with
  | [] => t
  | _ :: _ => reduce_mean (length (shape t) - 1) t
  end.

Definition var_last (t : tensor) : tensor :=
  match shape t with
  | [] => tfull [] 0
  | _ :: _ => reduce_var (length (shape t) - 1) t
  end.

(** The reductions along [dim = 1], which a tensor of rank below two
    does not have. *)
Definition mean_dim1 (t : tensor) : result tensor :=
  if (2 <=? length (shape t))%nat then Ok (reduce_mean 1 t)
  else Raise IndexError.

Definition var_dim1 (t : tensor) : result tensor :=
  if (2 <=? length (shape t))%nat then Ok (reduce_var 1 t)
  else Raise IndexError.

(** The element type of a tensor, as far as the layers look at it. *)
Inductive dtype : Type := Float32 | OtherDtype.

(** [eps = 1e-5 if x.dtype == torch.float32 else 1e-3] *)
Definition norm_eps (dt : dtype) : R :=
  match dt with
  | Float32 => 1e-5
  | OtherDtype => 1e-3
  end.

(** [Tensor.rsqrt], pointwise. *)
Definition rsqrt (v : R) : R := 1 / sqrt v.

(** [self.g]: a learned tensor, or the number 1 when [scale] is off. *)
Definition times_g (g : option tensor) (t : tensor) : result tensor :=
  match g with
  | Some gt => tmul t gt
  | None => Ok (tmap (fun v => v * 1) t)
  end.

(** [LayerNorm]: [g] has shape [1; 1; dim] and starts at one. *)
Record LayerNorm : Type := mkLayerNorm { ln_g : option tensor }.

Definition LayerNorm_init (dim : nat) (scale : bool) : LayerNorm :=
  {| ln_g := if scale then Some (tfull [1; 1; dim]%nat 1) else None |}.

(** [LayerNorm.forward]; [dt] is [x.dtype]. *)
Definition LayerNorm_forward (self : LayerNorm) (dt : dtype) (x : tensor)
  : result tensor :=
  let eps := norm_eps dt in
  let var := var_last x in
  let mean := mean_last x in
  rbind (tsub x mean) (fun centred =>
  rbind (tmul centred (tmap (fun v => rsqrt (clamp_min eps v)) var))
        (fun normed =>
  times_g self.(ln_g) normed)).

(** [ConvLayerNorm]: [g] has shape [1; dim; 1; 1] and starts at one. *)
Record ConvLayerNorm : Type := mkConvLayerNorm { cln_g : option tensor }.

Definition ConvLayerNorm_init (dim : nat) (scale : bool) : ConvLayerNorm :=
  {| cln_g := if scale then Some (tfull [1; dim; 1; 1]%nat 1) else None |}.

(** [ConvLayerNorm.forward] *)
Definition ConvLayerNorm_forward (self : ConvLayerNorm) (dt : dtype)
  (x : tensor) : result tensor :=
  let eps := norm_eps dt in
  rbind (var_dim1 x) (fun var =>
  rbind (mean_dim1 x) (fun mean =>
  rbind (tsub x mean) (fun centred =>
  rbind (tmul centred (tmap (fun v => rsqrt (clamp_min eps v)) var))
        (fun normed =>
  times_g self.(cln_g) normed)))).

(** ** The time embedding of the denoiser *)

(** [RandomOrLearnedSinusoidalPosEmb]: [weights] holds [dim // 2]
    frequencies; a rank-one tensor is a list of scalars and a rank-two
    tensor a list of rows. *)
Record SinusoidalPosEmb : Type := mkSinusoidalPosEmb {
  weights : list R;
  requires_grad : bool
}.

(** [RandomOrLearnedSinusoidalPosEmb.__init__] *)
Definition SinusoidalPosEmb_init (dim : nat) (is_random : bool)
  : M SinusoidalPosEmb :=
  if (dim mod 2 =? 0)%nat then
    let half_dim := (dim / 2)%nat in
    w <- rand (randn [half_dim]) ;;
    ret {| weights := map (fun j => entry w [j]) (seq 0 half_dim);
           requires_grad := negb is_random |}
  else raise AssertionError.

(** [RandomOrLearnedSinusoidalPosEmb.forward] on a vector [x] of [b]
    values. *)
Definition SinusoidalPosEmb_forward (self : SinusoidalPosEmb) (x : list R)
  : list (list R) :=
  map (fun xi =>
         let freqs := map (fun w => xi * w * 2 * PI) self.(weights) in
         let fouriered := map sin freqs ++ map cos freqs in
         xi :: fouriered)
      x.

(** ** The channel plan of the denoiser *)

(** [dims], [in_out] and [mid_dim] of [UViT.__init__]. *)
Definition uvit_dims (dim : nat) (init_dim : option nat) (dim_mults : list nat)
  : list nat :=
  let init_dim := match init_dim with Some v => v | None => dim end in
  init_dim :: map (fun m => (dim * m)%nat) dim_mults.

Definition uvit_in_out (dim : nat) (init_dim : option nat)
  (dim_mults : list nat) : list (nat * nat) :=
  let dims := uvit_dims dim init_dim dim_mults in
  combine (removelast dims) (tl dims).

Definition uvit_mid_dim (dim : nat) (init_dim : option nat)
  (dim_mults : list nat) : nat :=
  last (uvit_dims dim init_dim dim_mults) 0%nat.

(** ** Reshaping inside the denoiser

    The einops patterns raise on an input they do not fit; the failure
    is [None]. *)

(** [Rearrange('b c (h p1) (w p2) -> b (c p1 p2) h w', p1 = 2, p2 = 2)],
    the first layer of [Downsample]. *)
Definition space_to_depth (x : tensor) : option tensor :=
  match shape x with
  | [b; c; hh; ww] =>
      if ((hh mod 2 =? 0) && (ww mod 2 =? 0))%nat then
        Some {| shape := [b; c * 4; hh / 2; ww / 2]%nat;
                entry := fun idx =>
                  match idx with
                  | [i; k; y; z] =>
                      entry x [i; k / 4; y * 2 + (k / 2) mod 2; z * 2 + k mod 2]%nat
                  | _ => 0
                  end |}
      else None
  | _ => None
  end.

(** [rearrange(x, 'b c h w -> b h w c')] followed by
    [pack([x], 'b * c')] in [UViT.forward]: the tokens handed to the
    transformer, and the packed shape [ps]. *)
Definition to_tokens (x : tensor) : option (tensor * (nat * nat)) :=
  match shape x with
  | [b; c; h; w] =>
      Some ({| shape := [b; h * w; c]%nat;
               entry := fun idx =>
                 match idx with
                 | [i; n; k] => entry x [i; k; n / w; n mod w]%nat
                 | _ => 0
                 end |},
            (h, w))
  | _ => None
  end.

(** [unpack(x, ps, 'b * c')] followed by
    [rearrange(x, 'b h w c -> b c h w')]. *)
Definition from_tokens (t : tensor) (ps : nat * nat) : option tensor :=
  let (h, w) := ps in
  match shape t with
  | [b; n; c] =>
      if (n =? h * w)%nat then
        Some {| shape := [b; c; h; w];
                entry := fun idx =>
                  match idx with
                  | [i; k; y; z] => entry t [i; y * w + z; k]%nat
                  | _ => 0
                  end |}
      else None
  | _ => None
  end.

(** The factor that [self.g] contributes at position [c] of the
    normalised axis, and the shape the constructors give to [g]. *)
Definition ln_scale (self : LayerNorm) (c : nat) : R :=
  match self.(ln_g) with
  | Some g => entry g [0; 0; c]%nat
  | None => 1
  end.

Definition ln_wf (self : LayerNorm) (dim : nat) : Prop :=
  match self.(ln_g) with
  | Some g => shape g = [1; 1; dim]%nat
  | None => True
  end.

Definition cln_scale (self : ConvLayerNorm) (c : nat) : R :=
  match self.(cln_g) with
  | Some g => entry g [0; c; 0; 0]%nat
  | None => 1
  end.

Definition cln_wf (self : ConvLayerNorm) (dim : nat) : Prop :=
  match self.(cln_g) with
  | Some g => shape g = [1; dim; 1; 1]%nat
  | None => True
  end.

(** ** Fixtures

    The end-to-end scenario of the specification: [image_size = 8], one
    channel, four sampling steps, the plain cosine schedule and a
    denoiser that always answers zero. *)

Definition zero_denoiser : denoiser := fun x _ => tmap (fun _ => 0) x.

Definition toy_diffusion (obj : objective) : GaussianDiffusion :=
  {| model := zero_denoiser; channels := 1; image_size := 8;
     pred_objective := obj; log_snr := logsnr_schedule_cosine;
     num_sample_steps := 4; clip_sample_denoised := true |}.

(** A generator whose every draw is [v]. *)
Definition constant_rng (v : R) : rng := {| tape := fun _ => v; cursor := 0 |}.


(** ** Specification-level notions *)

(** The mean squared error between a prediction and a target of the
    same shape, following the specification's words. *)
Definition mean_squared_error (pred target : tensor) : R :=
  fold_right Rplus 0
    (map (fun idx => (entry pred idx - entry target idx) ^ 2)
         (indices (shape target)))
  / INR (numel (shape target)).

(** The shapes that the check at the head of [forward] turns away. *)
Definition shape_rejected (d : GaussianDiffusion) (s : list nat) : Prop :=
  match s with
  | [b; c; h; w] => h <> d.(image_size) \/ w <> d.(image_size)
  | _ => True
  end.

(** The same object with another value of [clip_sample_denoised]. *)
Definition with_clip_sample_denoised (d : GaussianDiffusion) (flag : bool)
  : GaussianDiffusion :=
  {| model := d.(model);
     channels := d.(channels);
     image_size := d.(image_size);
     pred_objective := d.(pred_objective);
     log_snr := d.(log_snr);
     num_sample_steps := d.(num_sample_steps);
     clip_sample_denoised := flag |}.

(** A computation whose only exceptions are broadcasting failures. *)
Definition raises_only_broadcast {A} (m : M A) : Prop :=
  forall (g g' : rng) (e : error), m g = (Raise e, g') -> e = BroadcastError.

(** * Properties *)

(** ** Real-analysis facts used by the schedules *)

Lemma exp_INR_le_pow3 (n : nat) : exp (INR n) <= 3 ^ n.
Proof.
  induction n as [|n IH].
  - simpl. rewrite exp_0. lra.
  - rewrite S_INR, exp_plus. simpl pow.
    pose proof exp_le_3 as H3.
    pose proof (exp_pos (INR n)) as Hn.
    pose proof (exp_pos 1) as H1.
    rewrite Rmult_comm. apply Rmult_le_compat; lra.
Qed.

Lemma exp_le_mono (x y : R) : x <= y -> exp x <= exp y.
Proof.
  intros [H | ->]; [left; now apply exp_increasing | right; reflexivity].
Qed.

Lemma ln_le_mono (x y : R) : 0 < x -> x <= y -> ln x <= ln y.
Proof.
  intros Hx [H | ->]; [left; now apply ln_increasing | right; reflexivity].
Qed.

Lemma tan_le_mono (x y : R) :
  - PI / 2 < x -> x <= y -> y < PI / 2 -> tan x <= tan y.
Proof.
  intros Hx [H | ->] Hy; [left; now apply tan_increasing | right; reflexivity].
Qed.

Lemma sigmoid_pos (x : R) : 0 < sigmoid x.
Proof.
  unfold sigmoid. pose proof (exp_pos (- x)).
  apply Rdiv_lt_0_compat; lra.
Qed.

Lemma sigmoid_complement (x : R) : sigmoid x + sigmoid (- x) = 1.
Proof.
  unfold sigmoid. rewrite Ropp_involutive, exp_Ropp.
  pose proof (exp_pos x). field. lra.
Qed.


(** ** The cosine schedule with its default bounds *)

Lemma cosine_unfold (t : R) :
  logsnr_schedule_cosine t = -2 * log (tan (cosine_arg t)).
Proof. reflexivity. Qed.

Lemma t_min_pos : 0 < t_min.
Proof.
  unfold t_min. rewrite <- atan_0. apply atan_increasing, exp_pos.
Qed.

Lemma t_max_lt_half_pi : t_max < PI / 2.
Proof. unfold t_max. apply atan_bound. Qed.

Lemma t_min_lt_t_max : t_min < t_max.
Proof.
  unfold t_min, t_max. apply atan_increasing, exp_increasing. lra.
Qed.

Lemma cosine_arg_range (t : R) :
  0 <= t <= 1 -> t_min <= cosine_arg t <= t_max.
Proof.
  intros [H0 H1]. unfold cosine_arg.
  pose proof t_min_lt_t_max. split; nra.
Qed.

Lemma cosine_arg_mono (t1 t2 : R) :
  t1 <= t2 -> cosine_arg t1 <= cosine_arg t2.
Proof.
  intros H. unfold cosine_arg. pose proof t_min_lt_t_max. nra.
Qed.

Lemma tan_t_min : tan t_min = exp (-0.5 * 15).
Proof. apply tan_atan. Qed.

Lemma tan_t_max : tan t_max = exp (-0.5 * -15).
Proof. apply tan_atan. Qed.

Lemma log_eps_pos : 0 < log_eps.
Proof. unfold log_eps. lra. Qed.

Lemma log_eps_le_tan_t_min : log_eps <= tan t_min.
Proof.
  rewrite tan_t_min.
  replace (-0.5 * 15) with (- (15 / 2)) by lra.
  rewrite exp_Ropp.
  assert (H8 : exp (15 / 2) <= 3 ^ 8).
  { apply Rle_trans with (exp (INR 8)).
    - apply exp_le_mono. simpl. lra.
    - apply exp_INR_le_pow3. }
  pose proof (exp_pos (15 / 2)) as Hp.
  unfold log_eps.
  apply Rle_trans with (/ 3 ^ 8).
  - lra.
  - apply Rinv_le_contravar; assumption.
Qed.

Lemma tan_cosine_arg_range (t : R) :
  0 <= t <= 1 -> tan t_min <= tan (cosine_arg t) <= tan t_max.
Proof.
  intros Ht. destruct (cosine_arg_range t Ht) as [Hlo Hhi].
  pose proof t_min_pos. pose proof t_max_lt_half_pi. pose proof PI2_RGT_0.
  split; apply tan_le_mono; lra.
Qed.

Lemma log_no_clamp (t : R) :
  0 <= t <= 1 -> log (tan (cosine_arg t)) = ln (tan (cosine_arg t)).
Proof.
  intros Ht. unfold log, clamp_min. rewrite Rmax_left; [reflexivity|].
  pose proof log_eps_le_tan_t_min. pose proof (tan_cosine_arg_range t Ht). lra.
Qed.

Lemma log_mono (x y : R) : x <= y -> log x <= log y.
Proof.
  intros H. unfold log, clamp_min. apply ln_le_mono.
  - apply Rlt_le_trans with log_eps; [apply log_eps_pos | apply Rmax_r].
  - now apply Rle_max_compat_r.
Qed.

Lemma cosine_at_0 : logsnr_schedule_cosine 0 = 15.
Proof.
  rewrite cosine_unfold, log_no_clamp by lra.
  unfold cosine_arg. rewrite Rmult_0_l, Rplus_0_r, tan_t_min, ln_exp. lra.
Qed.

Lemma cosine_at_1 : logsnr_schedule_cosine 1 = -15.
Proof.
  rewrite cosine_unfold, log_no_clamp by lra.
  unfold cosine_arg.
  replace (t_min + 1 * (t_max - t_min)) with t_max by lra.
  rewrite tan_t_max, ln_exp. lra.
Qed.

Lemma cosine_nonincreasing (t1 t2 : R) :
  0 <= t1 -> t1 <= t2 -> t2 <= 1 ->
  logsnr_schedule_cosine t2 <= logsnr_schedule_cosine t1.
Proof.
  intros H0 H12 H1. rewrite !cosine_unfold.
  assert (Hl : log (tan (cosine_arg t1)) <= log (tan (cosine_arg t2))).
  { apply log_mono.
    destruct (cosine_arg_range t1) as [Ha _]; [lra|].
    destruct (cosine_arg_range t2) as [_ Hb]; [lra|].
    pose proof (cosine_arg_mono t1 t2 H12).
    pose proof t_min_pos. pose proof t_max_lt_half_pi. pose proof PI2_RGT_0.
    apply tan_le_mono; lra. }
  lra.
Qed.

Lemma cosine_range (t : R) :
  0 <= t <= 1 -> -15 <= logsnr_schedule_cosine t <= 15.
Proof.
  intros [H0 H1]. rewrite <- cosine_at_0, <- cosine_at_1.
  split; apply cosine_nonincreasing; lra.
Qed.

(** C7. With the default bounds, for every [t] in [0,1] the cosine
    schedule equals [-2 * ln (tan (t_min + t * (t_max - t_min)))] with
    [t_min = atan (exp (-0.5 * 15))] and [t_max = atan (exp (-0.5 * -15))],
    and its value lies between [logsnr_min = -15] and [logsnr_max = 15]. *)
Theorem cosine_schedule_closed_form (t : R) :
  0 <= t <= 1 ->
  logsnr_schedule_cosine t
  = -2 * ln (tan (atan (exp (-0.5 * 15))
                  + t * (atan (exp (-0.5 * -15)) - atan (exp (-0.5 * 15)))))
  /\ -15 <= logsnr_schedule_cosine t <= 15.
Proof.
  intros Ht. split.
  - rewrite cosine_unfold, log_no_clamp by exact Ht. reflexivity.
  - now apply cosine_range.
Qed.

Lemma cosine_schedule_closed_form_witness :
  0 <= 1 / 4 <= 1
  /\ logsnr_schedule_cosine (1 / 4)
     = -2 * ln (tan (atan (exp (-0.5 * 15))
                     + 1 / 4 * (atan (exp (-0.5 * -15)) - atan (exp (-0.5 * 15)))))
  /\ -15 <= logsnr_schedule_cosine (1 / 4) <= 15.
Proof.
  assert (H : 0 <= 1 / 4 <= 1) by lra.
  split; [exact H | exact (cosine_schedule_closed_form (1 / 4) H)].
Defined.

(** C10. With the default bounds, for every [t] in [0,1] the argument
    of [tan] lies strictly between 0 and [PI / 2], its tangent is
    strictly positive and not below the [1e-20] floor, so the clamp of
    the [log] helper leaves it unchanged and the schedule returns the
    finite value [-2 * ln (tan _)], between -15 and 15. *)
Theorem cosine_schedule_no_clamp (t : R) :
  0 <= t <= 1 ->
  logsnr_schedule_cosine t = -2 * log (tan (cosine_arg t))
  /\ 0 < cosine_arg t < PI / 2
  /\ 0 < tan (cosine_arg t)
  /\ log_eps <= tan (cosine_arg t)
  /\ clamp_min log_eps (tan (cosine_arg t)) = tan (cosine_arg t)
  /\ log (tan (cosine_arg t)) = ln (tan (cosine_arg t))
  /\ -15 <= logsnr_schedule_cosine t <= 15.
Proof.
  intros Ht.
  destruct (cosine_arg_range t Ht) as [Hlo Hhi].
  pose proof t_min_pos as Hmin. pose proof t_max_lt_half_pi as Hmax.
  pose proof (tan_cosine_arg_range t Ht) as [Htan _].
  pose proof log_eps_le_tan_t_min as Heps.
  assert (Hrange : 0 < cosine_arg t < PI / 2) by lra.
  repeat split; try lra.
  - apply tan_gt_0; lra.
  - unfold clamp_min. apply Rmax_left. lra.
  - now apply log_no_clamp.
  - now apply cosine_range.
  - now apply cosine_range.
Qed.

Lemma cosine_schedule_no_clamp_witness :
  0 <= 1 <= 1
  /\ clamp_min log_eps (tan (cosine_arg 1)) = tan (cosine_arg 1).
Proof.
  assert (H : 0 <= 1 <= 1) by lra.
  split; [exact H | exact (proj1 (proj2 (proj2 (proj2 (proj2
    (cosine_schedule_no_clamp 1 H))))))].
Defined.

(** ** The variance-preserving identity *)

Lemma alpha_sigma_squares (l : R) :
  sqrt (sigmoid l) * sqrt (sigmoid l)
  + sqrt (sigmoid (- l)) * sqrt (sigmoid (- l)) = 1.
Proof.
  rewrite !sqrt_sqrt by (left; apply sigmoid_pos).
  apply sigmoid_complement.
Qed.

(** ** Monotonicity of the schedule variants *)

Lemma shifted_inv (fn : schedule) (image_d noise_d : R) (f : schedule) :
  logsnr_schedule_shifted fn image_d noise_d = Ok f ->
  image_d <> 0 /\ 0 < noise_d / image_d
  /\ f = (fun t => fn t + 2 * ln (noise_d / image_d)).
Proof.
  unfold logsnr_schedule_shifted, py_div, math_log.
  destruct (Req_dec_T image_d 0) as [E | NE]; simpl; [discriminate|].
  destruct (Rlt_dec 0 (noise_d / image_d)) as [P | NP]; simpl; [|discriminate].
  intros H. injection H as <-. auto.
Qed.

Lemma shifted_ok (fn : schedule) (image_d noise_d : R) :
  image_d <> 0 -> 0 < noise_d / image_d ->
  logsnr_schedule_shifted fn image_d noise_d
  = Ok (fun t => fn t + 2 * ln (noise_d / image_d)).
Proof.
  intros NE P. unfold logsnr_schedule_shifted, py_div, math_log.
  destruct (Req_dec_T image_d 0) as [E | _]; [contradiction|]. simpl.
  destruct (Rlt_dec 0 (noise_d / image_d)) as [_ | NP]; [|contradiction].
  reflexivity.
Qed.

Lemma interpolated_inv (fn : schedule) (image_d lo hi : R) (f : schedule) :
  logsnr_schedule_interpolated fn image_d lo hi = Ok f ->
  image_d <> 0 /\ 0 < lo / image_d /\ 0 < hi / image_d
  /\ f = (fun t => t * (fn t + 2 * ln (lo / image_d))
                   + (1 - t) * (fn t + 2 * ln (hi / image_d))).
Proof.
  unfold logsnr_schedule_interpolated. intros H.
  destruct (logsnr_schedule_shifted fn image_d lo) as [flo | e] eqn:Elo;
    simpl in H; [|discriminate].
  destruct (logsnr_schedule_shifted fn image_d hi) as [fhi | e] eqn:Ehi;
    simpl in H; [|discriminate].
  apply shifted_inv in Elo as (NE & Plo & ->).
  apply shifted_inv in Ehi as (_ & Phi & ->).
  injection H as <-. auto.
Qed.

Lemma interpolated_ok (fn : schedule) (image_d lo hi : R) :
  image_d <> 0 -> 0 < lo / image_d -> 0 < hi / image_d ->
  logsnr_schedule_interpolated fn image_d lo hi
  = Ok (fun t => t * (fn t + 2 * ln (lo / image_d))
                 + (1 - t) * (fn t + 2 * ln (hi / image_d))).
Proof.
  intros NE Plo Phi. unfold logsnr_schedule_interpolated.
  rewrite !shifted_ok by assumption. reflexivity.
Qed.

Lemma shifted_nonincreasing (fn : schedule) (shift : R) :
  nonincreasing_on_unit fn ->
  nonincreasing_on_unit (fun t => fn t + shift).
Proof.
  intros Hfn t1 t2 H0 H12 H1. pose proof (Hfn t1 t2 H0 H12 H1). simpl. lra.
Qed.

Lemma interpolated_nonincreasing (fn : schedule) (sl sh : R) :
  sl <= sh ->
  nonincreasing_on_unit fn ->
  nonincreasing_on_unit (fun t => t * (fn t + sl) + (1 - t) * (fn t + sh)).
Proof.
  intros Hs Hfn t1 t2 H0 H12 H1. pose proof (Hfn t1 t2 H0 H12 H1). simpl. nra.
Qed.

Lemma ln_2_pow_24_gt_15 : 15 < ln 16777216.
Proof.
  rewrite <- (ln_exp 15) at 1.
  apply ln_increasing; [apply exp_pos|].
  apply Rle_lt_trans with (3 ^ 15).
  - replace 15 with (INR 15) at 1 by (simpl; lra). apply exp_INR_le_pow3.
  - lra.
Qed.

Lemma INR_64 : INR 64 = 64.
Proof. simpl. lra. Qed.

Lemma init_interpolated (m : denoiser) (lo hi : R) :
  0 < lo -> 0 < hi ->
  init m 64 3 ObjV logsnr_schedule_cosine None (Some lo) (Some hi) 500 true
  = Ok (interpolated_diffusion m lo hi).
Proof.
  intros Hlo Hhi. unfold init. cbn [exists_ andb orb rbind].
  assert (forall v, 0 < v -> 0 < v / INR 64).
  { intros v Hv. rewrite INR_64. lra. }
  rewrite interpolated_ok; [reflexivity | rewrite INR_64; lra | |]; auto.
Qed.

(** C4, counterexample. Built with [image_size = 64],
    [noise_d_low = 2^30] and [noise_d_high = 64], the interpolated
    schedule is 15 at [t = 0] and above 15 at [t = 1]: it is not
    non-increasing on [0,1]. *)
Lemma interpolated_schedule_increases :
  init (fun x _ => x) 64 3 ObjV logsnr_schedule_cosine
       None (Some 1073741824) (Some 64) 500 true
  = Ok (steep_diffusion (fun x _ => x))
  /\ 0 <= 0 /\ 0 <= 1 /\ 1 <= 1
  /\ log_snr (steep_diffusion (fun x _ => x)) 0 = 15
  /\ 15 < log_snr (steep_diffusion (fun x _ => x)) 1
  /\ ~ nonincreasing_on_unit (log_snr (steep_diffusion (fun x _ => x))).
Proof.
  assert (H0 : log_snr (steep_diffusion (fun x _ => x)) 0 = 15).
  { cbn [log_snr steep_diffusion interpolated_diffusion].
    rewrite cosine_at_0, INR_64.
    replace (64 / 64) with 1 by lra. rewrite ln_1. lra. }
  assert (H1 : 15 < log_snr (steep_diffusion (fun x _ => x)) 1).
  { cbn [log_snr steep_diffusion interpolated_diffusion].
    rewrite cosine_at_1, INR_64.
    replace (1073741824 / 64) with 16777216 by lra.
    pose proof ln_2_pow_24_gt_15. lra. }
  split; [apply init_interpolated; lra|].
  repeat split; try lra; try assumption.
  intros Hmono. specialize (Hmono 0 1). lra.
Qed.

(** C4, amended. Built on the default cosine schedule, the schedule of
    a diffusion object is non-increasing on [0,1] when it is the plain
    cosine schedule, when it is shifted (for every [noise_d] the
    constructor accepts), and when it is interpolated with
    [noise_d_low <= noise_d_high]. *)
Theorem log_snr_nonincreasing (m : denoiser) (image_size channels : nat)
  (obj : objective) (noise_d noise_d_low noise_d_high : option R)
  (steps : nat) (clip : bool) (d : GaussianDiffusion) :
  init m image_size channels obj logsnr_schedule_cosine
       noise_d noise_d_low noise_d_high steps clip = Ok d ->
  (forall lo hi, noise_d_low = Some lo -> noise_d_high = Some hi -> lo <= hi) ->
  forall t1 t2 : R, 0 <= t1 -> t1 <= t2 -> t2 <= 1 ->
  d.(log_snr) t2 <= d.(log_snr) t1.
Proof.
  intros Hinit Horder.
  change (nonincreasing_on_unit d.(log_snr)).
  assert (Hcos : nonincreasing_on_unit logsnr_schedule_cosine).
  { intros t1 t2. apply cosine_nonincreasing. }
  unfold init in Hinit.
  destruct noise_d as [nd|], noise_d_low as [lo|], noise_d_high as [hi|];
    simpl in Hinit; try discriminate.
  - (* noise_d with only one of the pair *)
    destruct (logsnr_schedule_shifted _ _ nd); simpl in Hinit; discriminate.
  - destruct (logsnr_schedule_shifted _ _ nd); simpl in Hinit; discriminate.
  - (* shifted *)
    destruct (logsnr_schedule_shifted _ _ nd) as [f | e] eqn:E;
      simpl in Hinit; [|discriminate].
    apply shifted_inv in E as (_ & _ & ->).
    injection Hinit as <-. simpl. now apply shifted_nonincreasing.
  - (* interpolated *)
    destruct (logsnr_schedule_interpolated _ _ lo hi) as [f | e] eqn:E;
      simpl in Hinit; [|discriminate].
    apply interpolated_inv in E as (NE & Plo & Phi & ->).
    injection Hinit as <-. simpl.
    apply interpolated_nonincreasing; [|exact Hcos].
    specialize (Horder lo hi eq_refl eq_refl).
    assert (Himg : 0 < INR image_size).
    { pose proof (pos_INR image_size). lra. }
    assert (Hq : lo / INR image_size <= hi / INR image_size).
    { unfold Rdiv. apply Rmult_le_compat_r; [|exact Horder].
      left. now apply Rinv_0_lt_compat. }
    pose proof (ln_le_mono _ _ Plo Hq). lra.
  - (* plain cosine *)
    injection Hinit as <-. simpl. exact Hcos.
Qed.

Lemma log_snr_nonincreasing_witness :
  (forall lo hi : R, Some 32 = Some lo -> Some 256 = Some hi -> lo <= hi)
  /\ log_snr (interpolated_diffusion (fun x _ => x) 32 256) 1
     <= log_snr (interpolated_diffusion (fun x _ => x) 32 256) 0.
Proof.
  assert (Horder : forall lo hi : R,
             Some 32 = Some lo -> Some 256 = Some hi -> lo <= hi).
  { intros lo hi H1 H2. injection H1 as <-. injection H2 as <-. lra. }
  split; [exact Horder|].
  apply (log_snr_nonincreasing (fun x _ => x) 64 3 ObjV
           None (Some 32) (Some 256) 500 true).
  - apply init_interpolated; lra.
  - exact Horder.
  - lra.
  - lra.
  - lra.
Defined.

(** ** Broadcasting of equal and of right-padded shapes *)

Lemma pad_left_id (s : list nat) : pad_left (length s) s = s.
Proof. unfold pad_left. rewrite Nat.sub_diag. reflexivity. Qed.

Lemma bdim_refl (x : nat) : bdim x x = Some x.
Proof. unfold bdim. rewrite Nat.eqb_refl. reflexivity. Qed.

Lemma bdim_one_r (x : nat) : bdim x 1 = Some x.
Proof. unfold bdim. destruct (x =? 1)%nat; reflexivity. Qed.

Lemma bdim_one_l (y : nat) : bdim 1 y = Some y.
Proof.
  unfold bdim. destruct (1 =? y)%nat eqn:E; [|reflexivity].
  apply Nat.eqb_eq in E. now subst.
Qed.

Lemma bdims_refl (s : list nat) : bdims s s = Some s.
Proof.
  induction s as [|x s IH]; simpl; [reflexivity|].
  now rewrite bdim_refl, IH.
Qed.

Lemma bdims_ones_r (s : list nat) : bdims s (repeat 1%nat (length s)) = Some s.
Proof.
  induction s as [|x s IH]; simpl; [reflexivity|].
  now rewrite bdim_one_r, IH.
Qed.

Lemma bdims_ones_l (s : list nat) : bdims (repeat 1%nat (length s)) s = Some s.
Proof.
  induction s as [|x s IH]; simpl; [reflexivity|].
  now rewrite bdim_one_l, IH.
Qed.

Lemma broadcast_shapes_same_rank (a b : list nat) :
  length a = length b -> broadcast_shapes a b = bdims a b.
Proof.
  intros H. unfold broadcast_shapes. rewrite H, Nat.max_id.
  rewrite pad_left_id. rewrite <- H. now rewrite pad_left_id.
Qed.

Lemma broadcast_shapes_refl (s : list nat) : broadcast_shapes s s = Some s.
Proof. rewrite broadcast_shapes_same_rank by reflexivity. apply bdims_refl. Qed.

Lemma broadcast_shapes_padded_r (b : nat) (rest : list nat) :
  broadcast_shapes (b :: rest) (b :: repeat 1%nat (length rest))
  = Some (b :: rest).
Proof.
  rewrite broadcast_shapes_same_rank by (simpl; now rewrite repeat_length).
  simpl. now rewrite bdim_refl, bdims_ones_r.
Qed.

Lemma broadcast_shapes_padded_l (b : nat) (rest : list nat) :
  broadcast_shapes (b :: repeat 1%nat (length rest)) (b :: rest)
  = Some (b :: rest).
Proof.
  rewrite broadcast_shapes_same_rank by (simpl; now rewrite repeat_length).
  simpl. now rewrite bdim_refl, bdims_ones_l.
Qed.

Lemma in_shape_length (idx s : list nat) :
  in_shape idx s -> length idx = length s.
Proof. apply Forall2_length. Qed.

Lemma bidx_in_shape (idx s : list nat) : in_shape idx s -> bidx s idx = idx.
Proof.
  intros H. unfold bidx.
  rewrite (in_shape_length _ _ H), Nat.sub_diag. simpl skipn.
  induction H as [|i d idx s Hid _ IH]; simpl; [reflexivity|].
  rewrite IH. destruct (d =? 1)%nat eqn:E; [|reflexivity].
  apply Nat.eqb_eq in E. f_equal. lia.
Qed.

Lemma tbin_eq (f : R -> R -> R) (a b : tensor) (s : list nat) :
  broadcast_shapes (shape a) (shape b) = Some s ->
  tbin f a b
  = Ok {| shape := s;
          entry := fun idx =>
            f (entry a (bidx (shape a) idx)) (entry b (bidx (shape b) idx)) |}.
Proof. intros H. unfold tbin. now rewrite H. Qed.

Lemma tbin_same_shape (f : R -> R -> R) (a b : tensor) :
  shape b = shape a ->
  tbin f a b
  = Ok {| shape := shape a;
          entry := fun idx =>
            f (entry a (bidx (shape a) idx)) (entry b (bidx (shape a) idx)) |}.
Proof.
  intros H. rewrite (tbin_eq f a b (shape a)).
  - now rewrite H.
  - rewrite H. apply broadcast_shapes_refl.
Qed.

Lemma indices_in_shape (s idx : list nat) :
  In idx (indices s) -> in_shape idx s.
Proof.
  revert idx. induction s as [|d s IH]; simpl; intros idx H.
  - destruct H as [<- | []]. constructor.
  - apply in_flat_map in H as (i & Hi & H).
    apply in_map_iff in H as (idx' & <- & H').
    apply in_seq in Hi. constructor; [lia | now apply IH].
Qed.

Lemma right_pad_shape (x t : tensor) (b : nat) (rest : list nat) :
  shape x = b :: rest -> shape t = [b] ->
  shape (right_pad_dims_to x t) = b :: repeat 1%nat (length rest).
Proof.
  intros Hx Ht. unfold right_pad_dims_to. rewrite Hx, Ht.
  replace (length (b :: rest) - length [b])%nat with (length rest)
    by (simpl; lia).
  destruct (length rest) as [|n] eqn:E.
  - simpl. exact Ht.
  - reflexivity.
Qed.

(** ** The posterior estimator *)

Lemma neg_expm1 (z : R) : - expm1 z = 1 - exp z.
Proof. unfold expm1. ring. Qed.

Lemma shape0_cons (x : tensor) (b : nat) (rest : list nat) :
  shape x = b :: rest -> shape0 x = Ok b.
Proof. intros H. unfold shape0. now rewrite H. Qed.

Lemma p_mean_variance_ok (d : GaussianDiffusion) (x : tensor)
  (time time_next : R) (b : nat) (rest : list nat) :
  shape x = b :: rest ->
  shape (d.(model) x (tfull [b] (d.(log_snr) time))) = shape x ->
  exists model_mean : tensor,
    p_mean_variance d x time time_next
    = Ok (model_mean,
          sigmoid (- d.(log_snr) time_next)
          * (1 - exp (d.(log_snr) time - d.(log_snr) time_next)))
    /\ shape model_mean = shape x.
Proof.
  intros Hx Hpred. unfold p_mean_variance, tsub, tadd. cbv zeta.
  rewrite (shape0_cons x b rest Hx), neg_expm1. cbn [rbind].
  destruct (pred_objective d);
    rewrite tbin_same_shape by (cbn [tmap shape]; exact Hpred);
    cbn [rbind tmap shape entry];
    rewrite tbin_same_shape by reflexivity;
    cbn [rbind tmap shape entry];
    eexists; split; reflexivity.
Qed.

(** C2. For a sample [x] of rank at least one and a denoiser whose
    prediction has the shape of [x], in both objective modes
    [p_mean_variance] returns the pair of a mean of the shape of [x],
    equal at every index to
    [alpha_next * (x * (1 - c) / alpha + c * clamp (-1) 1 x_start)], and
    of the variance [squared_sigma_next * c], where
    [c = 1 - exp (logSNR time - logSNR time_next)] and [x_start] is
    [alpha * x - sigma * pred] in velocity mode and
    [(x - sigma * pred) / alpha] in noise mode. *)
Theorem p_mean_variance_formula (d : GaussianDiffusion) (x : tensor)
  (time time_next : R) (b : nat) (rest : list nat) :
  shape x = b :: rest ->
  shape (d.(model) x (tfull [b] (d.(log_snr) time))) = shape x ->
  let logsnr := d.(log_snr) time in
  let logsnr_next := d.(log_snr) time_next in
  let c := 1 - exp (logsnr - logsnr_next) in
  let alpha := sqrt (sigmoid logsnr) in
  let sigma := sqrt (sigmoid (- logsnr)) in
  let alpha_next := sqrt (sigmoid logsnr_next) in
  let squared_sigma_next := sigmoid (- logsnr_next) in
  let pred := d.(model) x (tfull [b] logsnr) in
  let x_start idx :=
    match d.(pred_objective) with
    | ObjV => alpha * entry x idx - sigma * entry pred idx
    | ObjEps => (entry x idx - sigma * entry pred idx) / alpha
    end in
  exists model_mean : tensor,
    p_mean_variance d x time time_next
    = Ok (model_mean, squared_sigma_next * c)
    /\ shape model_mean = shape x
    /\ forall idx, in_shape idx (shape x) ->
         entry model_mean idx
         = alpha_next * (entry x idx * (1 - c) / alpha
                         + c * clamp (-1) 1 (x_start idx)).
Proof.
  intros Hx Hpred. cbv zeta.
  unfold p_mean_variance, tsub, tadd. cbv zeta.
  rewrite (shape0_cons x b rest Hx). cbn [rbind].
  rewrite neg_expm1.
  destruct (pred_objective d).
  - rewrite tbin_same_shape by (cbn [tmap shape]; exact Hpred).
    cbn [rbind tmap shape entry].
    rewrite tbin_same_shape by reflexivity.
    cbn [rbind tmap shape entry].
    eexists. split; [reflexivity|]. split; [reflexivity|].
    intros idx Hidx. cbn [entry shape tmap].
    rewrite !(bidx_in_shape idx (shape x) Hidx). reflexivity.
  - rewrite tbin_same_shape by (cbn [tmap shape]; exact Hpred).
    cbn [rbind tmap shape entry].
    rewrite tbin_same_shape by reflexivity.
    cbn [rbind tmap shape entry].
    eexists. split; [reflexivity|]. split; [reflexivity|].
    intros idx Hidx. cbn [entry shape tmap].
    rewrite !(bidx_in_shape idx (shape x) Hidx). reflexivity.
Qed.

Lemma p_mean_variance_formula_witness :
  exists model_mean : tensor,
    p_mean_variance (toy_diffusion ObjEps) (tfull [2; 1; 8; 8] 0.5)%nat 1 0.75
    = Ok (model_mean,
          sigmoid (- logsnr_schedule_cosine 0.75)
          * (1 - exp (logsnr_schedule_cosine 1 - logsnr_schedule_cosine 0.75)))
    /\ shape model_mean = [2; 1; 8; 8]%nat.
Proof.
  destruct (p_mean_variance_formula (toy_diffusion ObjEps)
              (tfull [2; 1; 8; 8]%nat 0.5) 1 0.75 2%nat [1; 8; 8]%nat
              eq_refl eq_refl)
    as (m & Hm & Hs & _).
  exists m. split; [exact Hm | exact Hs].
Defined.

(** ** The sampler *)

Lemma bind_ok {A B} (m : M A) (k : A -> M B) (g g' : rng) (a : A) :
  m g = (Ok a, g') -> bind m k g = k a g'.
Proof. intros H. unfold bind. now rewrite H. Qed.

Lemma bind_lift_ok {A B} (a : A) (k : A -> M B) (g : rng) :
  bind (lift (Ok a)) k g = k a g.
Proof. reflexivity. Qed.

Lemma bind_rand {A B} (f : rng -> A * rng) (k : A -> M B) (g : rng) :
  bind (rand f) k g = k (fst (f g)) (snd (f g)).
Proof. unfold bind, rand. now destruct (f g). Qed.

Lemma p_sample_unfold (d : GaussianDiffusion) (x : tensor)
  (time time_next : R) (b : nat) (rest : list nat) :
  shape x = b :: rest ->
  p_sample d x time time_next
  = ('(model_mean, model_variance) <- lift (p_mean_variance d x time time_next) ;;
     if Req_dec_T time_next 0 then ret model_mean
     else
       noise <- rand (randn_like x) ;;
       lift (tadd model_mean (tmap (fun v => sqrt model_variance * v) noise))).
Proof. intros Hx. unfold p_sample. now rewrite Hx. Qed.

Lemma p_sample_ok (d : GaussianDiffusion) (x : tensor)
  (time time_next : R) (g : rng) (b : nat) (rest : list nat) :
  shape x = b :: rest ->
  shape (d.(model) x (tfull [b] (d.(log_snr) time))) = shape x ->
  exists (out : tensor) (g' : rng),
    p_sample d x time time_next g = (Ok out, g') /\ shape out = shape x.
Proof.
  intros Hx Hpred.
  destruct (p_mean_variance_ok d x time time_next b rest Hx Hpred)
    as (mm & Hpmv & Hshape).
  rewrite (p_sample_unfold d x time time_next b rest Hx).
  unfold bind at 1. unfold lift at 1. rewrite Hpmv.
  destruct (Req_dec_T time_next 0) as [E | NE].
  - exists mm, g. split; [reflexivity | exact Hshape].
  - rewrite bind_rand. unfold lift, tadd.
    rewrite tbin_same_shape
      by (cbn [tmap shape randn_like draw fst]; now rewrite Hshape).
    eexists _, _. split; [reflexivity | exact Hshape].
Qed.

(** C6. For a sample [x] of rank at least one, every time and a
    denoiser whose prediction has the shape of [x], [p_mean_variance]
    returns a pair [(model_mean, model_variance)] and: when [time_next]
    is exactly 0, [p_sample] returns [model_mean] itself and draws
    nothing from the generator; when [time_next] is not 0, it draws one
    noise tensor of the shape of [x] and returns
    [model_mean + sqrt model_variance * noise]. *)
Theorem p_sample_final_step (d : GaussianDiffusion) (x : tensor)
  (time time_next : R) (g : rng) (b : nat) (rest : list nat) :
  shape x = b :: rest ->
  shape (d.(model) x (tfull [b] (d.(log_snr) time))) = shape x ->
  exists (model_mean : tensor) (model_variance : R),
    p_mean_variance d x time time_next = Ok (model_mean, model_variance)
    /\ shape model_mean = shape x
    /\ (time_next = 0 ->
        p_sample d x time time_next g = (Ok model_mean, g))
    /\ (time_next <> 0 ->
        exists out : tensor,
          p_sample d x time time_next g = (Ok out, snd (randn_like x g))
          /\ shape out = shape x
          /\ forall idx, in_shape idx (shape x) ->
               entry out idx
               = entry model_mean idx
                 + sqrt model_variance * entry (fst (randn_like x g)) idx).
Proof.
  intros Hx Hpred.
  destruct (p_mean_variance_ok d x time time_next b rest Hx Hpred)
    as (mm & Hpmv & Hshape).
  eexists mm, _. split; [exact Hpmv|]. split; [exact Hshape|].
  rewrite (p_sample_unfold d x time time_next b rest Hx), Hpmv. split.
  - intros H0. unfold bind, lift.
    destruct (Req_dec_T time_next 0) as [_ | NE]; [reflexivity | contradiction].
  - intros HN. unfold bind at 1. unfold lift at 1.
    destruct (Req_dec_T time_next 0) as [E | _]; [contradiction|].
    rewrite bind_rand. unfold lift, tadd.
    rewrite tbin_same_shape
      by (cbn [tmap shape randn_like draw fst]; now rewrite Hshape).
    eexists. split; [reflexivity|]. split; [exact Hshape|].
    intros idx Hidx. cbn [entry shape tmap].
    rewrite Hshape, !(bidx_in_shape idx (shape x) Hidx). reflexivity.
Qed.

Lemma p_sample_final_step_witness :
  exists model_mean : tensor,
    fst (p_sample (toy_diffusion ObjEps) (tfull [2; 1; 8; 8]%nat 0.5) 0.25 0
           (constant_rng 1))
    = Ok model_mean
    /\ snd (p_sample (toy_diffusion ObjEps) (tfull [2; 1; 8; 8]%nat 0.5) 0.25 0
              (constant_rng 1))
       = constant_rng 1.
Proof.
  destruct (p_sample_final_step (toy_diffusion ObjEps)
              (tfull [2; 1; 8; 8]%nat 0.5) 0.25 0 (constant_rng 1)
              2%nat [1; 8; 8]%nat eq_refl eq_refl)
    as (m & v & _ & _ & Hfinal & _).
  exists m. rewrite (Hfinal eq_refl). split; reflexivity.
Defined.

Lemma p_sample_steps_ok (d : GaussianDiffusion) (steps : nat -> R)
  (ixs : list nat) :
  (forall x l, shape (d.(model) x l) = shape x) ->
  forall (img : tensor) (g : rng) (b : nat) (rest : list nat),
    shape img = b :: rest ->
    exists (out : tensor) (g' : rng),
      p_sample_steps d steps ixs img g = (Ok out, g')
      /\ shape out = shape img.
Proof.
  intros Hmodel. induction ixs as [|i ixs IH]; intros img g b rest Himg.
  - exists img, g. split; reflexivity.
  - cbn [p_sample_steps].
    destruct (p_sample_ok d img (steps i) (steps (i + 1)%nat) g b rest
                Himg (Hmodel _ _))
      as (nx & g1 & Hnx & Hsn).
    rewrite (bind_ok _ _ _ _ _ Hnx).
    destruct (IH nx g1 b rest) as (out & g' & Hout & Hs).
    { now rewrite Hsn. }
    exists out, g'. split; [exact Hout | now rewrite Hs].
Qed.

Lemma linspace_steps (n i : nat) :
  linspace 1 0 (n + 1) i = 1 - INR i / INR n.
Proof.
  unfold linspace. rewrite Nat.add_sub. unfold Rdiv. ring.
Qed.


Lemma p_mean_variance_variance (d : GaussianDiffusion) (x : tensor)
  (time time_next : R) (model_mean : tensor) (model_variance : R) :
  p_mean_variance d x time time_next = Ok (model_mean, model_variance) ->
  model_variance
  = sigmoid (- d.(log_snr) time_next)
    * (1 - exp (d.(log_snr) time - d.(log_snr) time_next)).
Proof.
  unfold p_mean_variance. cbv zeta. rewrite neg_expm1. intros H.
  destruct (shape0 x) as [b | e]; [|discriminate]. cbn [rbind] in H.
  match type of H with
  | rbind ?r _ = _ => destruct r as [x_start | e]; [|discriminate]
  end.
  cbn [rbind] in H.
  match type of H with
  | rbind ?r _ = _ => destruct r as [blend | e]; [|discriminate]
  end.
  cbn [rbind] in H. now injection H as _ <-.
Qed.

Lemma steps_in_unit (n i : nat) :
  (i <= n)%nat -> 0 <= 1 - INR i / INR n <= 1.
Proof.
  intros Hi. destruct n as [|n].
  - replace i with 0%nat by lia. simpl. unfold Rdiv. rewrite Rmult_0_l. lra.
  - pose proof (pos_INR i) as H0. apply le_INR in Hi.
    assert (Hn : 0 < INR (S n)) by (apply lt_0_INR; lia).
    assert (Hq : 0 <= INR i / INR (S n) <= 1).
    { split.
      - apply Rmult_le_pos; [exact H0 | left; now apply Rinv_0_lt_compat].
      - apply Rmult_le_reg_r with (INR (S n)); [exact Hn|].
        unfold Rdiv. rewrite Rmult_assoc, Rinv_l by lra. lra. }
    lra.
Qed.









(** ** The training loss *)

Lemma default_noise_ok (noise : option tensor) (x_start : tensor) (g : rng) :
  (forall n, noise = Some n -> shape n = shape x_start) ->
  exists (n : tensor) (g' : rng),
    default_noise noise x_start g = (Ok n, g') /\ shape n = shape x_start.
Proof.
  intros H. destruct noise as [n|].
  - exists n, g. split; [reflexivity | now apply H].
  - exists (fst (randn_like x_start g)), (snd (randn_like x_start g)).
    split; reflexivity.
Qed.

Lemma bidx_ones (idx : list nat) :
  map (fun di : nat * nat => if (fst di =? 1)%nat then 0%nat else snd di)
      (combine (repeat 1%nat (length idx)) idx)
  = repeat 0%nat (length idx).
Proof.
  induction idx as [|j idx IH]; simpl; [reflexivity | now rewrite IH].
Qed.

Lemma bidx_padded (b i : nat) (idx rest : list nat) :
  in_shape (i :: idx) (b :: rest) ->
  bidx (b :: repeat 1%nat (length rest)) (i :: idx)
  = i :: repeat 0%nat (length rest).
Proof.
  intros H. inversion H as [|? ? ? ? Hi Hrest]; subst.
  apply in_shape_length in Hrest. unfold bidx.
  replace (length (i :: idx) - length (b :: repeat 1%nat (length rest)))%nat
    with 0%nat by (simpl; rewrite repeat_length; lia).
  cbn [skipn combine map fst snd].
  rewrite <- Hrest, bidx_ones.
  destruct (b =? 1)%nat eqn:E; [|reflexivity].
  apply Nat.eqb_eq in E. f_equal. lia.
Qed.

Lemma right_pad_entry (x t : tensor) (b i : nat) (rest : list nat) :
  shape x = b :: rest -> shape t = [b] ->
  entry (right_pad_dims_to x t) (i :: repeat 0%nat (length rest))
  = entry t [i].
Proof.
  intros Hx Ht. unfold right_pad_dims_to. rewrite Hx, Ht.
  replace (length (b :: rest) - length [b])%nat with (length rest)
    by (simpl; lia).
  destruct (length rest) as [|n]; reflexivity.
Qed.

(** The forward corruption, entry by entry: with one time per batch
    element, every entry of batch element [i] is
    [x_start * alpha_i + noise * sigma_i], the coefficients being taken
    at the log-SNR of the time of that batch element. *)
Lemma q_sample_entries (d : GaussianDiffusion) (x_start times noise : tensor)
  (g : rng) (b : nat) (rest : list nat) :
  shape x_start = b :: rest ->
  shape times = [b] ->
  shape noise = shape x_start ->
  exists x : tensor,
    q_sample d x_start times (Some noise) g
    = (Ok (x, tmap d.(log_snr) times), g)
    /\ shape x = shape x_start
    /\ forall (i : nat) (idx : list nat),
         in_shape (i :: idx) (shape x_start) ->
         entry x (i :: idx)
         = entry x_start (i :: idx)
           * sqrt (sigmoid (d.(log_snr) (entry times [i])))
           + entry noise (i :: idx)
             * sqrt (sigmoid (- d.(log_snr) (entry times [i]))).
Proof.
  intros Hx Ht Hn. unfold q_sample, default_noise.
  rewrite (bind_ok _ _ g g noise eq_refl). cbv zeta.
  pose proof (right_pad_shape x_start (tmap (log_snr d) times) b rest Hx Ht)
    as Hp.
  pose proof (fun i => right_pad_entry x_start (tmap (log_snr d) times)
                         b i rest Hx Ht) as He.
  set (padded := right_pad_dims_to x_start (tmap (log_snr d) times)) in *.
  unfold tmul, tadd.
  rewrite (tbin_eq Rmult x_start _ (b :: rest))
    by (cbn [tmap shape]; rewrite Hx, Hp; apply broadcast_shapes_padded_r).
  cbn [rbind].
  rewrite (tbin_eq Rmult noise _ (b :: rest))
    by (cbn [tmap shape]; rewrite Hn, Hx, Hp; apply broadcast_shapes_padded_r).
  cbn [rbind].
  rewrite tbin_same_shape by reflexivity.
  eexists. split; [reflexivity|]. split; [cbn [shape]; now rewrite Hx|].
  intros i idx Hin. cbn [entry shape tmap].
  rewrite Hn, Hp, Hx in *.
  rewrite !(bidx_in_shape _ _ Hin), (bidx_padded b i idx rest Hin), He.
  reflexivity.
Qed.

Lemma tmean_squares (out noise : tensor) :
  tmean {| shape := shape noise;
           entry := fun idx =>
             (entry out (bidx (shape noise) idx)
              - entry noise (bidx (shape noise) idx))
             * (entry out (bidx (shape noise) idx)
                - entry noise (bidx (shape noise) idx)) |}
  = mean_squared_error out noise.
Proof.
  unfold tmean, tsum, mean_squared_error. cbn [shape entry].
  f_equal. f_equal. apply map_ext_in. intros idx Hin.
  rewrite (bidx_in_shape idx (shape noise) (indices_in_shape _ _ Hin)).
  simpl pow. ring.
Qed.

Lemma mse_loss_same_shape (out noise : tensor) :
  shape out = shape noise ->
  mse_loss out noise = Ok (mean_squared_error out noise).
Proof.
  intros H. unfold mse_loss.
  rewrite (tbin_eq _ out noise (shape noise))
    by (rewrite H; apply broadcast_shapes_refl).
  cbn [rbind]. rewrite H. now rewrite tmean_squares.
Qed.

Lemma p_losses_returns_mse (d : GaussianDiffusion) (x_start times : tensor)
  (noise : option tensor) (g : rng) (b : nat) (rest : list nat) :
  shape x_start = b :: rest ->
  shape times = [b] ->
  (forall n, noise = Some n -> shape n = shape x_start) ->
  (forall x l, shape (d.(model) x l) = shape x) ->
  exists (noise_used x : tensor) (g' : rng),
    default_noise noise x_start g = (Ok noise_used, g')
    /\ q_sample d x_start times (Some noise_used) g'
       = (Ok (x, tmap d.(log_snr) times), g')
    /\ p_losses d x_start times noise g
       = (Ok (mean_squared_error (d.(model) x (tmap d.(log_snr) times))
                                 noise_used), g').
Proof.
  intros Hx Ht Hnoise Hmodel.
  destruct (default_noise_ok noise x_start g Hnoise) as (n & g' & Hdef & Hn).
  destruct (q_sample_entries d x_start times n g' b rest Hx Ht Hn)
    as (x & Hq & Hxs & _).
  exists n, x, g'. split; [exact Hdef|]. split; [exact Hq|].
  unfold p_losses.
  rewrite (bind_ok _ _ _ _ _ Hdef), (bind_ok _ _ _ _ _ Hq).
  assert (Hmse : mse_loss (model d x (tmap (log_snr d) times)) n
                 = Ok (mean_squared_error (model d x (tmap (log_snr d) times)) n)).
  { apply mse_loss_same_shape. now rewrite Hmodel, Hxs, Hn. }
  destruct (pred_objective d).
  - (* velocity: the target is computed, then dropped *)
    set (padded := right_pad_dims_to x (tmap (log_snr d) times)).
    assert (Hp : shape padded = b :: repeat 1%nat (length rest)).
    { apply right_pad_shape; [now rewrite Hxs | exact Ht]. }
    unfold tmul, tsub.
    rewrite (tbin_eq Rmult _ n (b :: rest))
      by (cbn [tmap shape]; rewrite Hn, Hx, Hp; apply broadcast_shapes_padded_l).
    cbn [rbind].
    rewrite (tbin_eq Rmult _ x_start (b :: rest))
      by (cbn [tmap shape]; rewrite Hx, Hp; apply broadcast_shapes_padded_l).
    cbn [rbind].
    rewrite tbin_same_shape by reflexivity.
    rewrite bind_lift_ok.
    unfold lift. now rewrite Hmse.
  - rewrite bind_lift_ok.
    unfold lift. now rewrite Hmse.
Qed.

(** C1. Whatever the batch, the times and the noise, a loss returned by
    [p_losses] is [F.mse_loss] of the denoiser's prediction on the
    corrupted batch against the noise used for the corruption, whatever
    the objective: in velocity mode the target
    [alpha * noise - sigma * x_start] is computed and left unused.
    And for a batch [x_start] of rank at least one, a vector of times
    with one entry per batch element, a noise tensor of the shape of
    [x_start] (given, or else drawn from the generator) and a denoiser
    whose prediction has the shape of its input, [p_losses] does return,
    and returns the mean over all elements of the squared difference
    between that prediction and that noise. *)
Theorem p_losses_scores_against_noise (d : GaussianDiffusion)
  (x_start times : tensor) (noise : option tensor) (g : rng) :
  (forall (g' : rng) (loss : R),
     p_losses d x_start times noise g = (Ok loss, g') ->
     exists (noise_used x log_snr : tensor) (g1 : rng),
       default_noise noise x_start g = (Ok noise_used, g1)
       /\ q_sample d x_start times (Some noise_used) g1 = (Ok (x, log_snr), g')
       /\ mse_loss (d.(model) x log_snr) noise_used = Ok loss)
  /\ (forall (b : nat) (rest : list nat),
        shape x_start = b :: rest ->
        shape times = [b] ->
        (forall n, noise = Some n -> shape n = shape x_start) ->
        (forall x l, shape (d.(model) x l) = shape x) ->
        exists (noise_used x : tensor) (g' : rng),
          default_noise noise x_start g = (Ok noise_used, g')
          /\ q_sample d x_start times (Some noise_used) g'
             = (Ok (x, tmap d.(log_snr) times), g')
          /\ p_losses d x_start times noise g
             = (Ok (mean_squared_error (d.(model) x (tmap d.(log_snr) times))
                                       noise_used), g')).
Proof.
  split.
  - intros g' loss.
    unfold p_losses. intros H. unfold bind at 1 in H.
    destruct (default_noise noise x_start g) as [[n | e] g1] eqn:Hdef;
      [|discriminate].
    unfold bind at 1 in H.
    destruct (q_sample d x_start times (Some n) g1) as [[[x l] | e] g2] eqn:Hq;
      [|discriminate].
    unfold bind, lift in H.
    match type of H with
    | context [match ?r with Ok _ => _ | Raise _ => _ end] =>
        destruct r as [target | e]; [|discriminate]
    end.
    injection H as H <-.
    exists n, x, l, g1. split; [reflexivity|]. split; [exact Hq | exact H].
  - intros b rest. apply p_losses_returns_mse.
Qed.

Lemma p_losses_scores_against_noise_witness :
  exists x : tensor,
    p_losses (toy_diffusion ObjV) (tfull [2; 1; 8; 8]%nat 0)
      (tfull [2%nat] 0.5) (Some (tfull [2; 1; 8; 8]%nat 1)) (constant_rng 1)
    = (Ok (mean_squared_error
             (zero_denoiser x (tmap logsnr_schedule_cosine (tfull [2%nat] 0.5)))
             (tfull [2; 1; 8; 8]%nat 1)),
       constant_rng 1).
Proof.
  destruct (proj2 (p_losses_scores_against_noise (toy_diffusion ObjV)
                     (tfull [2; 1; 8; 8]%nat 0) (tfull [2%nat] 0.5)
                     (Some (tfull [2; 1; 8; 8]%nat 1)) (constant_rng 1))
              2%nat [1; 8; 8]%nat eq_refl eq_refl)
    as (n & x & g' & Hdef & _ & Hloss).
  - intros n Hn. injection Hn as <-. reflexivity.
  - intros x l. reflexivity.
  - injection Hdef as <- <-. exists x. exact Hloss.
Defined.

(** ** The shape check of [forward] *)

Lemma tbin_raises (f : R -> R -> R) (a b : tensor) (e : error) :
  tbin f a b = Raise e -> e = BroadcastError.
Proof.
  unfold tbin. destruct (broadcast_shapes (shape a) (shape b)); intros H.
  - discriminate.
  - now injection H as <-.
Qed.

Lemma rob_ret {A} (a : A) : raises_only_broadcast (ret a).
Proof. intros g g' e H. discriminate. Qed.

Lemma rob_rand {A} (f : rng -> A * rng) : raises_only_broadcast (rand f).
Proof. intros g g' e H. unfold rand in H. destruct (f g). discriminate. Qed.

Lemma rob_lift {A} (r : result A) :
  (forall e, r = Raise e -> e = BroadcastError) ->
  raises_only_broadcast (lift r).
Proof. intros Hr g g' e H. injection H as H _. now apply Hr. Qed.

Lemma rob_bind {A B} (m : M A) (k : A -> M B) :
  raises_only_broadcast m ->
  (forall a, raises_only_broadcast (k a)) ->
  raises_only_broadcast (bind m k).
Proof.
  intros Hm Hk g g' e H. unfold bind in H.
  destruct (m g) as [[a | e0] g0] eqn:E.
  - exact (Hk a g0 g' e H).
  - injection H as <- <-. exact (Hm g g0 e0 E).
Qed.

Lemma rbind_raises {A B} (r : result A) (k : A -> result B) (e : error) :
  (forall e', r = Raise e' -> e' = BroadcastError) ->
  (forall a e', k a = Raise e' -> e' = BroadcastError) ->
  rbind r k = Raise e -> e = BroadcastError.
Proof.
  intros Hr Hk H. destruct r as [a | e0]; simpl in H.
  - exact (Hk a e H).
  - injection H as <-. now apply Hr.
Qed.

Lemma default_noise_rob (noise : option tensor) (x_start : tensor) :
  raises_only_broadcast (default_noise noise x_start).
Proof. destruct noise; [apply rob_ret | apply rob_rand]. Qed.

Lemma q_sample_rob (d : GaussianDiffusion) (x_start times : tensor)
  (noise : option tensor) :
  raises_only_broadcast (q_sample d x_start times noise).
Proof.
  unfold q_sample. apply rob_bind; [apply default_noise_rob|]. intros n.
  apply rob_bind; [|intros x; apply rob_ret].
  apply rob_lift. intros e.
  apply rbind_raises; [apply tbin_raises|]. intros xa e'.
  apply rbind_raises; [apply tbin_raises|]. intros ns e''.
  apply tbin_raises.
Qed.

Lemma p_losses_rob (d : GaussianDiffusion) (x_start times : tensor)
  (noise : option tensor) :
  raises_only_broadcast (p_losses d x_start times noise).
Proof.
  unfold p_losses. apply rob_bind; [apply default_noise_rob|]. intros n.
  apply rob_bind; [apply q_sample_rob|]. intros [x l].
  apply rob_bind.
  - apply rob_lift. intros e. destruct (pred_objective d).
    + apply rbind_raises; [apply tbin_raises|]. intros an e'.
      apply rbind_raises; [apply tbin_raises|]. intros sx e''.
      apply tbin_raises.
    + discriminate.
  - intros _. apply rob_lift. intros e. unfold mse_loss.
    apply rbind_raises; [apply tbin_raises|]. intros sq e'. discriminate.
Qed.

Lemma forward_accepted (d : GaussianDiffusion) (img : tensor)
  (noise : option tensor) (b c : nat) :
  shape img = [b; c; d.(image_size); d.(image_size)] ->
  forward d img noise
  = (times <- rand (uniform_ [b]) ;;
     p_losses d (normalize_to_neg_one_to_one img) times noise).
Proof.
  intros H. unfold forward. rewrite H, Nat.eqb_refl. cbn [andb].
  unfold shape0. cbn [normalize_to_neg_one_to_one tmap shape]. rewrite H.
  reflexivity.
Qed.

Lemma forward_accepted_rob (d : GaussianDiffusion) (img : tensor)
  (noise : option tensor) (b c : nat) :
  shape img = [b; c; d.(image_size); d.(image_size)] ->
  raises_only_broadcast (forward d img noise).
Proof.
  intros H. rewrite (forward_accepted d img noise b c H).
  apply rob_bind; [apply rob_rand|]. intros times. apply p_losses_rob.
Qed.

Lemma forward_rejected (d : GaussianDiffusion) (img : tensor)
  (noise : option tensor) (g : rng) :
  shape_rejected d (shape img) ->
  forward d img noise g = (Raise ValueError, g)
  \/ forward d img noise g = (Raise AssertionError, g).
Proof.
  unfold shape_rejected, forward.
  destruct (shape img) as [|b [|c [|h [|w [|? ?]]]]]; intros H;
    try (left; reflexivity).
  right.
  destruct (Nat.eqb_spec h (image_size d)) as [Eh | Nh];
    destruct (Nat.eqb_spec w (image_size d)) as [Ew | Nw];
    try reflexivity.
  destruct H; contradiction.
Qed.

Lemma not_rejected_shape (d : GaussianDiffusion) (s : list nat) :
  ~ shape_rejected d s ->
  exists b c, s = [b; c; d.(image_size); d.(image_size)].
Proof.
  unfold shape_rejected.
  destruct s as [|b [|c [|h [|w [|? ?]]]]]; intros H;
    try (exfalso; apply H; exact I).
  exists b, c.
  destruct (Nat.eq_dec h (image_size d)) as [-> | Nh];
    [|exfalso; apply H; now left].
  destruct (Nat.eq_dec w (image_size d)) as [-> | Nw];
    [|exfalso; apply H; now right].
  reflexivity.
Qed.

Lemma shape_rejected_dec (d : GaussianDiffusion) (s : list nat) :
  shape_rejected d s \/ ~ shape_rejected d s.
Proof.
  unfold shape_rejected.
  destruct s as [|b [|c [|h [|w [|? ?]]]]]; try (left; exact I).
  destruct (Nat.eq_dec h (image_size d)) as [Eh | Nh]; [|left; now left].
  destruct (Nat.eq_dec w (image_size d)) as [Ew | Nw]; [|left; now right].
  right. intros [H | H]; contradiction.
Qed.

(** C3, counterexample. The object of the end-to-end scenario expects
    one channel and 8 by 8 images; on a batch of shape [2; 3; 8; 8],
    whose channel count is three, [forward] raises nothing and returns a
    loss. *)
Lemma forward_accepts_wrong_channels :
  channels (toy_diffusion ObjEps) = 1%nat
  /\ image_size (toy_diffusion ObjEps) = 8%nat
  /\ (forall B : nat,
        shape (tfull [2; 3; 8; 8]%nat 0.5)
        <> [B; channels (toy_diffusion ObjEps);
            image_size (toy_diffusion ObjEps);
            image_size (toy_diffusion ObjEps)])
  /\ exists (loss : R) (g' : rng),
       forward (toy_diffusion ObjEps) (tfull [2; 3; 8; 8]%nat 0.5) None
         (constant_rng 1)
       = (Ok loss, g').
Proof.
  split; [reflexivity|]. split; [reflexivity|]. split.
  - intros B H. discriminate.
  - rewrite (forward_accepted (toy_diffusion ObjEps)
               (tfull [2; 3; 8; 8]%nat 0.5) None 2%nat 3%nat eq_refl), bind_rand.
    destruct (p_losses_returns_mse (toy_diffusion ObjEps)
                (normalize_to_neg_one_to_one (tfull [2; 3; 8; 8]%nat 0.5))
                (fst (uniform_ [2%nat] (constant_rng 1))) None
                (snd (uniform_ [2%nat] (constant_rng 1)))
                2%nat [3; 8; 8]%nat eq_refl eq_refl)
      as (n & x & g' & _ & _ & Hloss).
    + intros n Hn. discriminate.
    + intros x l. reflexivity.
    + eexists _, g'. exact Hloss.
Qed.

(** C3, amended. [forward] raises its own error (the unpacking
    [ValueError] or the [AssertionError] of the size check) if and only
    if the batch is not of rank four or its height or width differs from
    [image_size]; it then raises before anything is drawn from the
    generator. A batch [b; c; image_size; image_size] goes on to the
    loss computation whatever its channel count [c]. *)
Theorem forward_shape_check (d : GaussianDiffusion) (img : tensor)
  (noise : option tensor) (g : rng) :
  (shape_rejected d (shape img)
   <-> (fst (forward d img noise g) = Raise ValueError
        \/ fst (forward d img noise g) = Raise AssertionError))
  /\ (shape_rejected d (shape img) -> snd (forward d img noise g) = g)
  /\ (forall b c : nat,
        shape img = [b; c; d.(image_size); d.(image_size)] ->
        forward d img noise g
        = (times <- rand (uniform_ [b]) ;;
           p_losses d (normalize_to_neg_one_to_one img) times noise) g).
Proof.
  split; [split|split].
  - intros H. destruct (forward_rejected d img noise g H) as [-> | ->];
      [left | right]; reflexivity.
  - intros H.
    destruct (shape_rejected_dec d (shape img)) as [Hr | Hn]; [exact Hr|].
    exfalso.
    destruct (not_rejected_shape d (shape img) Hn) as (b & c & Hs).
    pose proof (forward_accepted_rob d img noise b c Hs) as Hrob.
    destruct (forward d img noise g) as [r g'] eqn:E. simpl in H.
    destruct H as [-> | ->]; specialize (Hrob g g' _ E); discriminate.
  - intros H. destruct (forward_rejected d img noise g H) as [-> | ->];
      reflexivity.
  - intros b c H. now rewrite (forward_accepted d img noise b c H).
Qed.

Lemma forward_shape_check_witness :
  shape_rejected (toy_diffusion ObjEps) (shape (tfull [2; 1; 8; 9]%nat 0.5))
  /\ snd (forward (toy_diffusion ObjEps) (tfull [2; 1; 8; 9]%nat 0.5) None
            (constant_rng 1))
     = constant_rng 1.
Proof.
  assert (H : shape_rejected (toy_diffusion ObjEps)
                (shape (tfull [2; 1; 8; 9]%nat 0.5))).
  { right. discriminate. }
  split; [exact H|].
  exact (proj1 (proj2 (forward_shape_check (toy_diffusion ObjEps)
                         (tfull [2; 1; 8; 9]%nat 0.5) None (constant_rng 1))) H).
Defined.

(** ** The unused flag *)

Lemma p_sample_steps_clip (d : GaussianDiffusion) (flag : bool)
  (steps : nat -> R) (ixs : list nat) (img : tensor) (g : rng) :
  p_sample_steps (with_clip_sample_denoised d flag) steps ixs img g
  = p_sample_steps d steps ixs img g.
Proof.
  revert img g. induction ixs as [|i ixs IH]; intros img g; [reflexivity|].
  cbn [p_sample_steps]. unfold bind.
  change (p_sample (with_clip_sample_denoised d flag) img (steps i)
            (steps (i + 1)%nat) g)
    with (p_sample d img (steps i) (steps (i + 1)%nat) g).
  destruct (p_sample d img (steps i) (steps (i + 1)%nat) g) as [[a | e] g'];
    [apply IH | reflexivity].
Qed.

Lemma sample_clip (d : GaussianDiffusion) (flag : bool) (batch_size : nat)
  (g : rng) :
  sample (with_clip_sample_denoised d flag) batch_size g = sample d batch_size g.
Proof.
  unfold sample, p_sample_loop. cbn [with_clip_sample_denoised channels
    image_size num_sample_steps].
  rewrite !bind_rand. unfold bind. now rewrite p_sample_steps_clip.
Qed.

Lemma init_clip (m : denoiser) (image_size channels : nat) (obj : objective)
  (noise_schedule : schedule) (noise_d noise_d_low noise_d_high : option R)
  (steps : nat) (flag flag' : bool) :
  init m image_size channels obj noise_schedule noise_d noise_d_low
       noise_d_high steps flag'
  = rbind (init m image_size channels obj noise_schedule noise_d noise_d_low
                noise_d_high steps flag)
          (fun d => Ok (with_clip_sample_denoised d flag')).
Proof.
  unfold init.
  destruct (exists_ noise_d && exists_ noise_d_low && exists_ noise_d_high);
    [reflexivity|].
  destruct (match noise_d with
            | Some nd => logsnr_schedule_shifted noise_schedule (INR image_size) nd
            | None => Ok noise_schedule
            end) as [s1 | e]; [|reflexivity].
  cbn [rbind].
  destruct (if exists_ noise_d_low || exists_ noise_d_high
            then match noise_d_low, noise_d_high with
                 | Some lo, Some hi =>
                     logsnr_schedule_interpolated s1 (INR image_size) lo hi
                 | _, _ => Raise AssertionError
                 end
            else Ok s1) as [s2 | e]; reflexivity.
Qed.

(** C9. The flag [clip_sample_denoised] is stored by the constructor
    and read by nothing: changing it in a diffusion object changes
    neither [sample], [forward], [p_losses], [p_sample] nor
    [p_mean_variance] on identical inputs and an identical generator;
    and two constructions that differ only in the flag either both
    raise the same error or build objects with identical [sample] and
    [forward]. *)
Theorem clip_sample_denoised_unused :
  (forall (d : GaussianDiffusion) (flag : bool),
     (forall batch_size g,
        sample (with_clip_sample_denoised d flag) batch_size g
        = sample d batch_size g)
     /\ (forall img noise g,
           forward (with_clip_sample_denoised d flag) img noise g
           = forward d img noise g)
     /\ (forall x_start times noise g,
           p_losses (with_clip_sample_denoised d flag) x_start times noise g
           = p_losses d x_start times noise g)
     /\ (forall x time time_next g,
           p_sample (with_clip_sample_denoised d flag) x time time_next g
           = p_sample d x time time_next g)
     /\ (forall x time time_next,
           p_mean_variance (with_clip_sample_denoised d flag) x time time_next
           = p_mean_variance d x time time_next))
  /\ (forall (m : denoiser) (image_size channels : nat) (obj : objective)
        (noise_schedule : schedule)
        (noise_d noise_d_low noise_d_high : option R) (steps : nat),
        match init m image_size channels obj noise_schedule noise_d
                   noise_d_low noise_d_high steps true,
              init m image_size channels obj noise_schedule noise_d
                   noise_d_low noise_d_high steps false
        with
        | Ok d_on, Ok d_off =>
            (forall batch_size g, sample d_on batch_size g = sample d_off batch_size g)
            /\ (forall img noise g, forward d_on img noise g = forward d_off img noise g)
        | Raise e_on, Raise e_off => e_on = e_off
        | _, _ => False
        end).
Proof.
  split.
  - intros d flag. split; [|split; [|split; [|split]]].
    + intros. apply sample_clip.
    + reflexivity.
    + reflexivity.
    + reflexivity.
    + reflexivity.
  - intros. rewrite (init_clip _ _ _ _ _ _ _ _ _ false true).
    destruct (init m image_size0 channels0 obj noise_schedule noise_d
                noise_d_low noise_d_high steps false) as [d | e];
      cbn [rbind]; [|reflexivity].
    split.
    + intros. apply sample_clip.
    + reflexivity.
Qed.

(** * Further properties of the diffusion core *)

(** ** Pixel range conversion *)

(** X1. [unnormalize_to_zero_to_one] undoes [normalize_to_neg_one_to_one]
    and conversely, entry by entry and on the shape; and a pixel lies in
    [0,1] exactly when its normalised value lies in [-1,1]. *)
Theorem normalize_round_trip (img : tensor) :
  shape (unnormalize_to_zero_to_one (normalize_to_neg_one_to_one img))
  = shape img
  /\ shape (normalize_to_neg_one_to_one (unnormalize_to_zero_to_one img))
     = shape img
  /\ (forall idx,
        entry (unnormalize_to_zero_to_one (normalize_to_neg_one_to_one img)) idx
        = entry img idx)
  /\ (forall idx,
        entry (normalize_to_neg_one_to_one (unnormalize_to_zero_to_one img)) idx
        = entry img idx)
  /\ (forall idx,
        0 <= entry img idx <= 1
        <-> -1 <= entry (normalize_to_neg_one_to_one img) idx <= 1).
Proof.
  unfold normalize_to_neg_one_to_one, unnormalize_to_zero_to_one.
  cbn [tmap shape entry].
  repeat split; try reflexivity; intros; try lra.
Qed.

(** ** Right padding of the dimensions *)

Lemma numel_app (a b : list nat) : numel (a ++ b) = (numel a * numel b)%nat.
Proof.
  induction a as [|x a IH]; simpl; [lia|]. fold (numel (a ++ b)).
  fold (numel a). rewrite IH. lia.
Qed.

Lemma numel_ones (n : nat) : numel (repeat 1%nat n) = 1%nat.
Proof. induction n as [|n IH]; simpl; [reflexivity|]. fold (numel (repeat 1%nat n)). lia. Qed.

(** X2. [right_pad_dims_to x t] returns [t] itself when [x] has no more
    dimensions than [t]; otherwise it appends dimensions of size 1 up to
    the rank of [x], keeps the number of elements, and reads the entry
    of [t] at the leading part of the index. *)
Theorem right_pad_dims_to_view (x t : tensor) :
  ((length (shape x) <= length (shape t))%nat -> right_pad_dims_to x t = t)
  /\ ((length (shape t) < length (shape x))%nat ->
      shape (right_pad_dims_to x t)
      = shape t ++ repeat 1%nat (length (shape x) - length (shape t))
      /\ length (shape (right_pad_dims_to x t)) = length (shape x)
      /\ numel (shape (right_pad_dims_to x t)) = numel (shape t)
      /\ forall idx pad : list nat,
           length idx = length (shape t) ->
           entry (right_pad_dims_to x t) (idx ++ pad) = entry t idx).
Proof.
  unfold right_pad_dims_to. split; intros H.
  - replace (length (shape x) - length (shape t))%nat with 0%nat by lia.
    reflexivity.
  - destruct (length (shape x) - length (shape t))%nat as [|n] eqn:E; [lia|].
    cbn [Nat.eqb shape entry]. repeat split.
    + rewrite length_app, repeat_length. lia.
    + rewrite numel_app, numel_ones. lia.
    + intros idx pad Hl. rewrite <- Hl, firstn_app, Nat.sub_diag, firstn_all.
      simpl. now rewrite app_nil_r.
Qed.

Lemma right_pad_dims_to_view_witness :
  shape (right_pad_dims_to (tfull [2; 1; 8; 8]%nat 0) (tfull [2%nat] 0.5))
  = [2; 1; 1; 1]%nat.
Proof.
  assert (H : (length (shape (tfull [2%nat] 0.5))
               < length (shape (tfull [2; 1; 8; 8]%nat 0)))%nat)
    by (simpl; lia).
  exact (proj1 (proj2 (right_pad_dims_to_view (tfull [2; 1; 8; 8]%nat 0)
                         (tfull [2%nat] 0.5)) H)).
Defined.

(** ** The floor of the logarithm and the general cosine schedule *)

Lemma log_at_floor (t : R) : t <= log_eps -> log t = ln log_eps.
Proof. intros H. unfold log, clamp_min. now rewrite Rmax_right. Qed.

Lemma log_above_floor (t : R) : log_eps <= t -> log t = ln t.
Proof. intros H. unfold log, clamp_min. now rewrite Rmax_left. Qed.

Lemma log_lower_bound (t : R) : ln log_eps <= log t.
Proof.
  unfold log, clamp_min. apply ln_le_mono; [apply log_eps_pos | apply Rmax_r].
Qed.

(** X3. The [log] helper never leaves the reals: at or below the floor
    [1e-20], in particular at zero and at negative numbers, it is the
    constant [ln 1e-20]; at or above the floor it is the logarithm; it
    never returns less than [ln 1e-20], and it never decreases. *)
Theorem log_floor (t : R) :
  (t <= log_eps -> log t = ln log_eps)
  /\ (log_eps <= t -> log t = ln t)
  /\ ln log_eps <= log t
  /\ (forall u, t <= u -> log t <= log u).
Proof.
  split; [apply log_at_floor|]. split; [apply log_above_floor|].
  split; [apply log_lower_bound|]. intros u. apply log_mono.
Qed.

Lemma log_floor_witness : log 0 = ln log_eps /\ log 1 = ln 1.
Proof.
  split.
  - apply (proj1 (log_floor 0)). unfold log_eps. lra.
  - apply (proj1 (proj2 (log_floor 1))). unfold log_eps. lra.
Defined.

(** X4. Whatever the bounds and the time, the cosine schedule never
    exceeds [-2 * ln 1e-20] (about 92.1); when [logsnr_max] is so large
    that [exp (-0.5 * logsnr_max)] falls to the floor or below, the value
    at [t = 0] is that cap and not [logsnr_max]. *)
Theorem cosine_schedule_cap (logsnr_min logsnr_max : R) :
  (forall t, logsnr_schedule_cosine_with logsnr_min logsnr_max t
             <= -2 * ln log_eps)
  /\ (exp (-0.5 * logsnr_max) <= log_eps ->
      logsnr_schedule_cosine_with logsnr_min logsnr_max 0 = -2 * ln log_eps).
Proof.
  unfold logsnr_schedule_cosine_with. split.
  - intros t. cbv zeta.
    pose proof (log_lower_bound
      (tan (atan (exp (-0.5 * logsnr_max))
            + t * (atan (exp (-0.5 * logsnr_min))
                   - atan (exp (-0.5 * logsnr_max)))))).
    lra.
  - intros H. cbv zeta. rewrite Rmult_0_l, Rplus_0_r, tan_atan.
    unfold log, clamp_min. now rewrite Rmax_right.
Qed.

Lemma exp_neg_100_small : exp (-0.5 * 200) <= log_eps.
Proof.
  replace (-0.5 * 200) with (- INR 100) by (simpl; lra).
  rewrite exp_Ropp. unfold log_eps.
  assert (H : 2 ^ 100 <= exp (INR 100)).
  { assert (Hn : forall n, 2 ^ n <= exp (INR n)).
    { induction n as [|n IH].
      - simpl. rewrite exp_0. lra.
      - rewrite S_INR, exp_plus. simpl pow.
        assert (H2 : 2 <= exp 1).
        { pose proof (exp_ineq1 1). lra. }
        pose proof (exp_pos (INR n)). pose proof (pow_lt 2 n).
        rewrite Rmult_comm. apply Rmult_le_compat; lra. }
    apply Hn. }
  apply Rle_trans with (/ 2 ^ 100).
  - apply Rinv_le_contravar; [lra | exact H].
  - lra.
Qed.

Lemma cosine_schedule_cap_witness :
  logsnr_schedule_cosine_with (-200) 200 0 = -2 * ln log_eps.
Proof.
  exact (proj2 (cosine_schedule_cap (-200) 200) exp_neg_100_small).
Defined.

(** ** Shifted and interpolated schedules *)

(** X6. [logsnr_schedule_shifted fn image_d noise_d] raises
    [ZeroDivisionError] exactly when [image_d] is zero, raises
    [ValueError] exactly when [image_d] is not zero and the ratio
    [noise_d / image_d] is not positive, and otherwise returns a schedule
    that differs from [fn] by the constant [2 * ln (noise_d / image_d)];
    with [noise_d = image_d] that schedule has the values of [fn]. *)
Theorem shifted_schedule_cases (fn : schedule) (image_d noise_d : R) :
  (logsnr_schedule_shifted fn image_d noise_d = Raise ZeroDivisionError
   <-> image_d = 0)
  /\ (logsnr_schedule_shifted fn image_d noise_d = Raise ValueError
      <-> image_d <> 0 /\ noise_d / image_d <= 0)
  /\ (forall f, logsnr_schedule_shifted fn image_d noise_d = Ok f ->
        forall t, f t - fn t = 2 * ln (noise_d / image_d))
  /\ (image_d <> 0 -> 0 < noise_d / image_d ->
      exists f, logsnr_schedule_shifted fn image_d noise_d = Ok f)
  /\ (forall f, noise_d = image_d ->
        logsnr_schedule_shifted fn image_d noise_d = Ok f ->
        forall t, f t = fn t).
Proof.
  unfold logsnr_schedule_shifted, py_div, math_log.
  destruct (Req_dec_T image_d 0) as [E | NE]; cbn [rbind].
  - repeat split; try discriminate; try tauto.
  - destruct (Rlt_dec 0 (noise_d / image_d)) as [P | NP]; cbn [rbind].
    + repeat split; try discriminate; try tauto; try (intros [_ H]; lra).
      * intros f H t. injection H as <-. lra.
      * intros _ _. eexists. reflexivity.
      * intros f -> H t. injection H as <-.
        replace (image_d / image_d) with 1 by (field; exact NE).
        rewrite ln_1. lra.
    + repeat split; try discriminate; try tauto; try (intros; lra).
Qed.

Lemma shifted_schedule_cases_witness :
  exists f, logsnr_schedule_shifted logsnr_schedule_cosine 64 32 = Ok f.
Proof.
  apply (proj1 (proj2 (proj2 (proj2
           (shifted_schedule_cases logsnr_schedule_cosine 64 32))))); lra.
Defined.

(** X7. A schedule returned by [logsnr_schedule_interpolated] is
    [fn t + t * shift_low + (1 - t) * shift_high] with the two shifts
    [2 * ln (noise_d / image_d)]: it is the high-shifted schedule at
    [t = 0], the low-shifted one at [t = 1], lies between the two along
    [0,1], and has the values of [fn] plus one shift when
    [noise_d_low = noise_d_high]. *)
Theorem interpolated_schedule_blend (fn : schedule)
  (image_d noise_d_low noise_d_high : R) (f : schedule) :
  logsnr_schedule_interpolated fn image_d noise_d_low noise_d_high = Ok f ->
  let shift_low := 2 * ln (noise_d_low / image_d) in
  let shift_high := 2 * ln (noise_d_high / image_d) in
  (forall t, f t = fn t + t * shift_low + (1 - t) * shift_high)
  /\ f 0 = fn 0 + shift_high
  /\ f 1 = fn 1 + shift_low
  /\ (forall t, 0 <= t <= 1 ->
        Rmin (fn t + shift_low) (fn t + shift_high) <= f t
        <= Rmax (fn t + shift_low) (fn t + shift_high))
  /\ (noise_d_low = noise_d_high -> forall t, f t = fn t + shift_low).
Proof.
  intros H. apply interpolated_inv in H as (_ & _ & _ & ->). cbv zeta.
  repeat split; intros; try lra.
  - destruct H as [H0 H1].
    apply Rle_trans with
      (Rmin (fn t + 2 * ln (noise_d_low / image_d))
            (fn t + 2 * ln (noise_d_high / image_d))
       * t
       + Rmin (fn t + 2 * ln (noise_d_low / image_d))
              (fn t + 2 * ln (noise_d_high / image_d))
         * (1 - t)); [lra|].
    pose proof (Rmin_l (fn t + 2 * ln (noise_d_low / image_d))
                       (fn t + 2 * ln (noise_d_high / image_d))).
    pose proof (Rmin_r (fn t + 2 * ln (noise_d_low / image_d))
                       (fn t + 2 * ln (noise_d_high / image_d))).
    nra.
  - destruct H as [H0 H1].
    apply Rle_trans with
      (Rmax (fn t + 2 * ln (noise_d_low / image_d))
            (fn t + 2 * ln (noise_d_high / image_d))
       * t
       + Rmax (fn t + 2 * ln (noise_d_low / image_d))
              (fn t + 2 * ln (noise_d_high / image_d))
         * (1 - t)); [|lra].
    pose proof (Rmax_l (fn t + 2 * ln (noise_d_low / image_d))
                       (fn t + 2 * ln (noise_d_high / image_d))).
    pose proof (Rmax_r (fn t + 2 * ln (noise_d_low / image_d))
                       (fn t + 2 * ln (noise_d_high / image_d))).
    nra.
  - subst. lra.
Qed.

Lemma interpolated_schedule_blend_witness :
  exists f,
    logsnr_schedule_interpolated logsnr_schedule_cosine 64 32 256 = Ok f
    /\ f 0 = logsnr_schedule_cosine 0 + 2 * ln (256 / 64).
Proof.
  eexists. split.
  - apply interpolated_ok; lra.
  - exact (proj1 (proj2 (interpolated_schedule_blend logsnr_schedule_cosine
                           64 32 256 _ (interpolated_ok _ 64 32 256
                             ltac:(lra) ltac:(lra) ltac:(lra))))).
Defined.

(** ** The constructor *)

(** X8. When [init] returns an object, the object stores the denoiser,
    the sizes, the objective, the step count and the flag it was given,
    and exactly one schedule variant is active: no modifier and the
    base schedule, or [noise_d] alone and the shifted schedule, or the
    pair [noise_d_low], [noise_d_high] alone and the interpolated
    schedule of the base. A shift is never combined with an
    interpolation. *)
Theorem init_variants (m : denoiser) (size chans : nat)
  (obj : objective) (noise_schedule : schedule)
  (noise_d noise_d_low noise_d_high : option R) (steps : nat) (clip : bool)
  (d : GaussianDiffusion) :
  init m size chans obj noise_schedule noise_d noise_d_low
       noise_d_high steps clip = Ok d ->
  d.(model) = m
  /\ d.(channels) = chans
  /\ d.(image_size) = size
  /\ d.(pred_objective) = obj
  /\ d.(num_sample_steps) = steps
  /\ d.(clip_sample_denoised) = clip
  /\ ((noise_d = None /\ noise_d_low = None /\ noise_d_high = None
       /\ d.(log_snr) = noise_schedule)
      \/ (exists nd, noise_d = Some nd /\ noise_d_low = None
                     /\ noise_d_high = None
                     /\ logsnr_schedule_shifted noise_schedule
                          (INR size) nd = Ok d.(log_snr))
      \/ (exists lo hi, noise_d = None /\ noise_d_low = Some lo
                        /\ noise_d_high = Some hi
                        /\ logsnr_schedule_interpolated noise_schedule
                             (INR size) lo hi = Ok d.(log_snr))).
Proof.
  unfold init. intros H.
  destruct noise_d as [nd|], noise_d_low as [lo|], noise_d_high as [hi|];
    cbn [exists_ andb orb] in H; try discriminate.
  - destruct (logsnr_schedule_shifted _ _ nd); cbn [rbind] in H; discriminate.
  - destruct (logsnr_schedule_shifted _ _ nd); cbn [rbind] in H; discriminate.
  - destruct (logsnr_schedule_shifted _ _ nd) as [f | e] eqn:E;
      cbn [rbind] in H; [|discriminate].
    injection H as <-. cbn [model channels image_size pred_objective
      num_sample_steps clip_sample_denoised log_snr].
    do 6 (split; [reflexivity|]). right. left.
    exists nd. do 3 (split; [reflexivity|]). exact E.
  - cbn [rbind] in H.
    destruct (logsnr_schedule_interpolated _ _ lo hi) as [f | e] eqn:E;
      cbn [rbind] in H; [|discriminate].
    injection H as <-. cbn [model channels image_size pred_objective
      num_sample_steps clip_sample_denoised log_snr].
    do 6 (split; [reflexivity|]). right. right.
    exists lo, hi. do 3 (split; [reflexivity|]). exact E.
  - cbn [rbind] in H. injection H as <-.
    cbn [model channels image_size pred_objective
      num_sample_steps clip_sample_denoised log_snr].
    do 6 (split; [reflexivity|]). left. repeat split.
Qed.

Lemma init_variants_witness :
  exists d,
    init zero_denoiser 64 3 ObjV logsnr_schedule_cosine None (Some 32)
         (Some 256) 500 true = Ok d
    /\ d.(image_size) = 64%nat /\ d.(channels) = 3%nat.
Proof.
  exists (interpolated_diffusion zero_denoiser 32 256).
  assert (H : init zero_denoiser 64 3 ObjV logsnr_schedule_cosine None
                (Some 32) (Some 256) 500 true
              = Ok (interpolated_diffusion zero_denoiser 32 256))
    by (apply init_interpolated; lra).
  destruct (init_variants _ _ _ _ _ _ _ _ _ _ _ H) as (_ & Hc & Hs & _).
  split; [exact H|]. split; [exact Hs | exact Hc].
Defined.

(** X9. [init] raises [AssertionError] when all three noise parameters
    are given, and when, without [noise_d], exactly one of
    [noise_d_low] and [noise_d_high] is given; and with an image size of
    zero every shifted or interpolated construction that passes the
    assertions raises [ZeroDivisionError]. *)
Theorem init_errors (m : denoiser) (size chans : nat)
  (obj : objective) (noise_schedule : schedule) (steps : nat) (clip : bool) :
  (forall nd lo hi,
     init m size chans obj noise_schedule (Some nd) (Some lo) (Some hi)
          steps clip = Raise AssertionError)
  /\ (forall lo,
        init m size chans obj noise_schedule None (Some lo) None steps clip
        = Raise AssertionError)
  /\ (forall hi,
        init m size chans obj noise_schedule None None (Some hi) steps clip
        = Raise AssertionError)
  /\ (size = 0%nat ->
      (forall nd lo hi,
         ~ (lo <> None /\ hi <> None) ->
         init m size chans obj noise_schedule (Some nd) lo hi steps clip
         = Raise ZeroDivisionError)
      /\ (forall lo hi,
            init m size chans obj noise_schedule None (Some lo) (Some hi)
                 steps clip
            = Raise ZeroDivisionError)).
Proof.
  assert (Hz : forall fn v, logsnr_schedule_shifted fn (INR 0) v
                            = Raise ZeroDivisionError).
  { intros fn v. unfold logsnr_schedule_shifted, py_div. simpl INR.
    destruct (Req_dec_T 0 0) as [_ | N]; [reflexivity | contradiction]. }
  repeat split; try reflexivity.
  - intros nd lo hi Hn. subst size. unfold init.
    destruct lo as [lo|], hi as [hi|]; cbn [exists_ andb orb];
      try (rewrite Hz; reflexivity).
    exfalso. apply Hn. split; discriminate.
  - intros lo hi. subst size. unfold init. cbn [exists_ andb orb rbind].
    unfold logsnr_schedule_interpolated. now rewrite Hz.
Qed.

Lemma init_errors_witness :
  init zero_denoiser 0 3 ObjV logsnr_schedule_cosine (Some 32) None None
       500 true = Raise ZeroDivisionError.
Proof.
  apply (proj1 (proj2 (proj2 (proj2
           (init_errors zero_denoiser 0 3 ObjV logsnr_schedule_cosine 500 true)))
           eq_refl)).
  intros [_ H]. now apply H.
Defined.

(** ** More on the posterior estimator *)

Lemma sigmoid_lt_1 (x : R) : sigmoid x < 1.
Proof.
  pose proof (sigmoid_complement x). pose proof (sigmoid_pos (- x)). lra.
Qed.

Lemma alpha_pos (l : R) : 0 < sqrt (sigmoid l).
Proof. apply sqrt_lt_R0, sigmoid_pos. Qed.

Lemma p_mean_variance_pointwise (d : GaussianDiffusion) (x : tensor)
  (time time_next : R) (b : nat) (rest : list nat) :
  shape x = b :: rest ->
  shape (d.(model) x (tfull [b] (d.(log_snr) time))) = shape x ->
  exists model_mean : tensor,
    p_mean_variance d x time time_next
    = Ok (model_mean,
          sigmoid (- d.(log_snr) time_next)
          * (1 - exp (d.(log_snr) time - d.(log_snr) time_next)))
    /\ shape model_mean = shape x
    /\ forall idx, in_shape idx (shape x) ->
         entry model_mean idx
         = sqrt (sigmoid (d.(log_snr) time_next))
           * (entry x idx
              * (1 - (1 - exp (d.(log_snr) time - d.(log_snr) time_next)))
              / sqrt (sigmoid (d.(log_snr) time))
              + (1 - exp (d.(log_snr) time - d.(log_snr) time_next))
                * clamp (-1) 1
                    match d.(pred_objective) with
                    | ObjV =>
                        sqrt (sigmoid (d.(log_snr) time)) * entry x idx
                        - sqrt (sigmoid (- d.(log_snr) time))
                          * entry (d.(model) x (tfull [b] (d.(log_snr) time))) idx
                    | ObjEps =>
                        (entry x idx
                         - sqrt (sigmoid (- d.(log_snr) time))
                           * entry (d.(model) x (tfull [b] (d.(log_snr) time))) idx)
                        / sqrt (sigmoid (d.(log_snr) time))
                    end).
Proof.
  intros Hx Hpred. unfold p_mean_variance, tsub, tadd. cbv zeta.
  rewrite (shape0_cons x b rest Hx), neg_expm1. cbn [rbind].
  destruct (pred_objective d);
    rewrite tbin_same_shape by (cbn [tmap shape]; exact Hpred);
    cbn [rbind tmap shape entry];
    rewrite tbin_same_shape by reflexivity;
    cbn [rbind tmap shape entry];
    (eexists; split; [reflexivity|]; split; [reflexivity|]);
    intros idx Hidx; cbn [entry shape tmap];
    rewrite !(bidx_in_shape idx (shape x) Hidx); reflexivity.
Qed.

(** ** The variance-preserving coefficients where the code uses them *)

(** C8. For every diffusion object, whatever its schedule, the
    coefficients [alpha = sqrt (sigmoid logSNR)] and
    [sigma = sqrt (sigmoid (- logSNR))] satisfy [alpha^2 + sigma^2 = 1]
    at every time, and they are the coefficients the code uses: every
    entry that [q_sample] returns for batch element [i] is
    [x_start * alpha + noise * sigma] with the pair taken at the time of
    that batch element, and the mean that [p_mean_variance] returns is
    built from the pair taken at [time], in the division by [alpha] and
    in the estimate of the clean sample. *)
Theorem variance_preserving (d : GaussianDiffusion) :
  (forall time : R,
     sqrt (sigmoid (d.(log_snr) time)) ^ 2
     + sqrt (sigmoid (- d.(log_snr) time)) ^ 2 = 1)
  /\ (forall (x_start times noise : tensor) (g : rng) (b : nat)
        (rest : list nat),
        shape x_start = b :: rest ->
        shape times = [b] ->
        shape noise = shape x_start ->
        exists x : tensor,
          q_sample d x_start times (Some noise) g
          = (Ok (x, tmap d.(log_snr) times), g)
          /\ forall (i : nat) (idx : list nat),
               in_shape (i :: idx) (shape x_start) ->
               exists alpha sigma : R,
                 alpha = sqrt (sigmoid (d.(log_snr) (entry times [i])))
                 /\ sigma = sqrt (sigmoid (- d.(log_snr) (entry times [i])))
                 /\ entry x (i :: idx)
                    = entry x_start (i :: idx) * alpha
                      + entry noise (i :: idx) * sigma
                 /\ alpha ^ 2 + sigma ^ 2 = 1)
  /\ (forall (x : tensor) (time time_next : R) (b : nat) (rest : list nat),
        shape x = b :: rest ->
        shape (d.(model) x (tfull [b] (d.(log_snr) time))) = shape x ->
        let c := 1 - exp (d.(log_snr) time - d.(log_snr) time_next) in
        let pred := d.(model) x (tfull [b] (d.(log_snr) time)) in
        exists (model_mean : tensor) (model_variance alpha sigma : R),
          alpha = sqrt (sigmoid (d.(log_snr) time))
          /\ sigma = sqrt (sigmoid (- d.(log_snr) time))
          /\ alpha ^ 2 + sigma ^ 2 = 1
          /\ p_mean_variance d x time time_next
             = Ok (model_mean, model_variance)
          /\ forall idx, in_shape idx (shape x) ->
               entry model_mean idx
               = sqrt (sigmoid (d.(log_snr) time_next))
                 * (entry x idx * (1 - c) / alpha
                    + c * clamp (-1) 1
                            match d.(pred_objective) with
                            | ObjV => alpha * entry x idx - sigma * entry pred idx
                            | ObjEps =>
                                (entry x idx - sigma * entry pred idx) / alpha
                            end)).
Proof.
  assert (Hsq : forall l, sqrt (sigmoid l) ^ 2 + sqrt (sigmoid (- l)) ^ 2 = 1).
  { intros l. simpl pow. rewrite !Rmult_1_r. apply alpha_sigma_squares. }
  split; [|split].
  - intros time. apply Hsq.
  - intros x_start times noise g b rest Hx Ht Hn.
    destruct (q_sample_entries d x_start times noise g b rest Hx Ht Hn)
      as (x & Hq & _ & He).
    exists x. split; [exact Hq|].
    intros i idx Hin. eexists _, _.
    split; [reflexivity|]. split; [reflexivity|].
    split; [exact (He i idx Hin) | apply Hsq].
  - intros x time time_next b rest Hx Hpred c pred.
    destruct (p_mean_variance_pointwise d x time time_next b rest Hx Hpred)
      as (mm & Hpmv & _ & Hm).
    eexists mm, _, _, _.
    split; [reflexivity|]. split; [reflexivity|]. split; [apply Hsq|].
    split; [exact Hpmv|].
    intros idx Hidx. exact (Hm idx Hidx).
Qed.

Lemma variance_preserving_witness :
  exists x : tensor,
    q_sample (toy_diffusion ObjV) (tfull [2; 1; 8; 8]%nat 0)
      (tfull [2%nat] 0.5) (Some (tfull [2; 1; 8; 8]%nat 1)) (constant_rng 1)
    = (Ok (x, tmap logsnr_schedule_cosine (tfull [2%nat] 0.5)), constant_rng 1)
    /\ exists alpha sigma : R,
         entry x [0; 0; 0; 0]%nat = 0 * alpha + 1 * sigma
         /\ alpha ^ 2 + sigma ^ 2 = 1.
Proof.
  destruct (proj1 (proj2 (variance_preserving (toy_diffusion ObjV)))
              (tfull [2; 1; 8; 8]%nat 0) (tfull [2%nat] 0.5)
              (tfull [2; 1; 8; 8]%nat 1) (constant_rng 1)
              2%nat [1; 8; 8]%nat eq_refl eq_refl eq_refl)
    as (x & Hq & He).
  exists x. split; [exact Hq|].
  destruct (He 0%nat [0; 0; 0]%nat) as (alpha & sigma & _ & _ & Hx & Hs).
  - repeat constructor.
  - exists alpha, sigma. split; [exact Hx | exact Hs].
Defined.

(** X10. A step between two times of equal log-SNR, in particular from
    a time to itself, is the identity: for a sample of rank at least one
    and a prediction of its shape, [p_mean_variance] returns a zero
    variance and a mean equal to [x] at every index, whatever the
    denoiser predicts and in both objective modes. *)
Theorem p_mean_variance_null_step (d : GaussianDiffusion) (x : tensor)
  (time time_next : R) (b : nat) (rest : list nat) :
  shape x = b :: rest ->
  shape (d.(model) x (tfull [b] (d.(log_snr) time))) = shape x ->
  d.(log_snr) time_next = d.(log_snr) time ->
  exists model_mean : tensor,
    p_mean_variance d x time time_next = Ok (model_mean, 0)
    /\ shape model_mean = shape x
    /\ forall idx, in_shape idx (shape x) ->
         entry model_mean idx = entry x idx.
Proof.
  intros Hx Hpred Heq.
  destruct (p_mean_variance_pointwise d x time time_next b rest Hx Hpred)
    as (mm & Hpmv & Hs & He).
  exists mm. split; [|split; [exact Hs|]].
  - rewrite Hpmv, Heq, Rminus_diag, exp_0. do 2 f_equal. ring.
  - intros idx Hidx. rewrite (He idx Hidx), Heq, Rminus_diag, exp_0.
    pose proof (alpha_pos (log_snr d time)) as Ha. field. lra.
Qed.

Lemma p_mean_variance_null_step_witness :
  exists model_mean : tensor,
    p_mean_variance (toy_diffusion ObjV) (tfull [2; 1; 8; 8]%nat 0.5) 0.5 0.5
    = Ok (model_mean, 0).
Proof.
  destruct (p_mean_variance_null_step (toy_diffusion ObjV)
              (tfull [2; 1; 8; 8]%nat 0.5) 0.5 0.5 2%nat [1; 8; 8]%nat
              eq_refl eq_refl eq_refl)
    as (m & Hm & _).
  exists m. exact Hm.
Defined.

(** X11. Whenever [p_mean_variance] returns, its variance is below 1;
    it is non-negative exactly when the log-SNR at [time] is at most
    the log-SNR at [time_next], and zero exactly when the two are
    equal: stepping towards a lower log-SNR yields a negative variance. *)
Theorem posterior_variance_sign (d : GaussianDiffusion) (x : tensor)
  (time time_next : R) (model_mean : tensor) (model_variance : R) :
  p_mean_variance d x time time_next = Ok (model_mean, model_variance) ->
  model_variance < 1
  /\ (0 <= model_variance <-> d.(log_snr) time <= d.(log_snr) time_next)
  /\ (model_variance = 0 <-> d.(log_snr) time = d.(log_snr) time_next).
Proof.
  intros H. apply p_mean_variance_variance in H. subst.
  set (l := log_snr d time). set (l' := log_snr d time_next).
  pose proof (sigmoid_pos (- l')) as Hs0.
  pose proof (sigmoid_lt_1 (- l')) as Hs1.
  pose proof (exp_pos (l - l')) as He.
  assert (Hle : l <= l' <-> exp (l - l') <= 1).
  { split; intros A.
    - rewrite <- exp_0. apply exp_le_mono. lra.
    - destruct (Rle_lt_dec l l') as [B | B]; [exact B|].
      assert (exp 0 < exp (l - l')) by (apply exp_increasing; lra).
      rewrite exp_0 in *. lra. }
  assert (Heq : l = l' <-> exp (l - l') = 1).
  { split; intros A.
    - rewrite A, Rminus_diag. apply exp_0.
    - rewrite <- exp_0 in A. apply exp_inv in A. lra. }
  split; [nra|]. split; split; intros A.
  - apply Hle. nra.
  - apply Hle in A. nra.
  - apply Heq. nra.
  - apply Heq in A. rewrite A. ring.
Qed.

Lemma posterior_variance_sign_witness :
  exists (model_mean : tensor) (model_variance : R),
    p_mean_variance (toy_diffusion ObjV) (tfull [2; 1; 8; 8]%nat 0.5) 0.5 0.5
    = Ok (model_mean, model_variance)
    /\ model_variance < 1.
Proof.
  destruct (p_mean_variance_ok (toy_diffusion ObjV)
              (tfull [2; 1; 8; 8]%nat 0.5) 0.5 0.5 2%nat [1; 8; 8]%nat
              eq_refl eq_refl)
    as (m & Hm & _).
  eexists m, _. split; [exact Hm|].
  exact (proj1 (posterior_variance_sign _ _ _ _ _ _ Hm)).
Defined.

(** ** Forward corruption and its inversion *)

(** X12. For a batch of rank at least one, one time per batch element
    and a noise tensor of the batch's shape, [q_sample] draws nothing,
    returns the schedule applied to the times together with a corrupted
    batch of the same shape whose every entry of batch element [i] is
    [x_start * alpha_i + noise * sigma_i], the coefficients being those
    of the log-SNR of the [i]-th time; and the clean entry is recovered
    from it as [(x - noise * sigma_i) / alpha_i]. *)
Theorem q_sample_pointwise (d : GaussianDiffusion) (x_start times noise : tensor)
  (g : rng) (b : nat) (rest : list nat) :
  shape x_start = b :: rest ->
  shape times = [b] ->
  shape noise = shape x_start ->
  exists x : tensor,
    q_sample d x_start times (Some noise) g
    = (Ok (x, tmap d.(log_snr) times), g)
    /\ shape x = shape x_start
    /\ forall (i : nat) (idx : list nat),
         in_shape (i :: idx) (shape x_start) ->
         let alpha := sqrt (sigmoid (d.(log_snr) (entry times [i]))) in
         let sigma := sqrt (sigmoid (- d.(log_snr) (entry times [i]))) in
         entry x (i :: idx)
         = entry x_start (i :: idx) * alpha + entry noise (i :: idx) * sigma
         /\ entry x_start (i :: idx)
            = (entry x (i :: idx) - entry noise (i :: idx) * sigma) / alpha.
Proof.
  intros Hx Ht Hn.
  destruct (q_sample_entries d x_start times noise g b rest Hx Ht Hn)
    as (x & Hq & Hs & He).
  exists x. split; [exact Hq|]. split; [exact Hs|].
  intros i idx Hin. cbv zeta. rewrite (He i idx Hin). split; [reflexivity|].
  pose proof (alpha_pos (log_snr d (entry times [i]))). field. lra.
Qed.

Lemma q_sample_pointwise_witness :
  exists x : tensor,
    q_sample (toy_diffusion ObjV) (tfull [2; 1; 8; 8]%nat 0)
      (tfull [2%nat] 0.5) (Some (tfull [2; 1; 8; 8]%nat 1)) (constant_rng 1)
    = (Ok (x, tmap logsnr_schedule_cosine (tfull [2%nat] 0.5)), constant_rng 1)
    /\ shape x = [2; 1; 8; 8]%nat.
Proof.
  destruct (q_sample_pointwise (toy_diffusion ObjV) (tfull [2; 1; 8; 8]%nat 0)
              (tfull [2%nat] 0.5) (tfull [2; 1; 8; 8]%nat 1) (constant_rng 1)
              2%nat [1; 8; 8]%nat eq_refl eq_refl eq_refl)
    as (x & Hq & Hs & _).
  exists x. split; [exact Hq | exact Hs].
Defined.

(** X13. Corruption followed by one reverse step with an exact
    prediction recovers the clean batch: when [x] is [q_sample] of
    [x_start] and [noise] at a single time, and the denoiser's
    prediction on [x] is the noise (noise mode) or the velocity
    [alpha * noise - sigma * x_start] (velocity mode), the mean returned
    by [p_mean_variance] is
    [alpha_next * (x * (1 - c) / alpha + c * clamp (-1) 1 x_start)]: the
    estimate of the clean sample inside it is [x_start] itself. *)
Theorem posterior_mean_exact_prediction (d : GaussianDiffusion)
  (x_start noise x log_snr_b : tensor) (time time_next : R) (g g' : rng)
  (b : nat) (rest : list nat) :
  shape x_start = b :: rest ->
  shape noise = shape x_start ->
  q_sample d x_start (tfull [b] time) (Some noise) g = (Ok (x, log_snr_b), g') ->
  let alpha := sqrt (sigmoid (d.(log_snr) time)) in
  let sigma := sqrt (sigmoid (- d.(log_snr) time)) in
  let pred := d.(model) x (tfull [b] (d.(log_snr) time)) in
  shape pred = shape x ->
  (forall idx, in_shape idx (shape x_start) ->
     entry pred idx
     = match d.(pred_objective) with
       | ObjV => alpha * entry noise idx - sigma * entry x_start idx
       | ObjEps => entry noise idx
       end) ->
  let c := 1 - exp (d.(log_snr) time - d.(log_snr) time_next) in
  exists (model_mean : tensor) (model_variance : R),
    p_mean_variance d x time time_next = Ok (model_mean, model_variance)
    /\ forall idx, in_shape idx (shape x_start) ->
         entry model_mean idx
         = sqrt (sigmoid (d.(log_snr) time_next))
           * (entry x idx * (1 - c) / alpha
              + c * clamp (-1) 1 (entry x_start idx)).
Proof.
  intros Hx Hn Hq alpha sigma pred Hpred Hexact c.
  destruct (q_sample_entries d x_start (tfull [b] time) noise g b rest
              Hx eq_refl Hn) as (x' & Hq' & Hs & He).
  rewrite Hq in Hq'. injection Hq' as -> _ _.
  assert (Hx' : shape x' = b :: rest) by (now rewrite Hs).
  destruct (p_mean_variance_pointwise d x' time time_next b rest Hx' Hpred)
    as (mm & Hpmv & _ & Hm).
  eexists mm, _. split; [exact Hpmv|].
  intros idx Hidx.
  assert (Hidx' : in_shape idx (shape x')) by (now rewrite Hs).
  rewrite (Hm idx Hidx'). fold c alpha sigma pred.
  rewrite (Hexact idx Hidx).
  destruct idx as [|i idx]; [rewrite Hx in Hidx; inversion Hidx|].
  rewrite (He i idx Hidx). cbn [tfull entry]. fold alpha sigma.
  pose proof (alpha_pos (log_snr d time)) as Ha. fold alpha in Ha.
  pose proof (alpha_sigma_squares (log_snr d time)) as Hvp.
  fold alpha sigma in Hvp.
  do 3 f_equal. f_equal.
  destruct (pred_objective d).
  - transitivity (entry x_start (i :: idx) * (alpha * alpha + sigma * sigma));
      [ring | rewrite Hvp; ring].
  - field. lra.
Qed.

Lemma posterior_mean_exact_prediction_witness :
  exists (x model_mean : tensor) (model_variance : R),
    q_sample (toy_diffusion ObjEps) (tfull [2; 1; 8; 8]%nat 0.5)
      (tfull [2%nat] 0.5) (Some (tfull [2; 1; 8; 8]%nat 0)) (constant_rng 1)
    = (Ok (x, tmap logsnr_schedule_cosine (tfull [2%nat] 0.5)), constant_rng 1)
    /\ p_mean_variance (toy_diffusion ObjEps) x 0.5 0.25
       = Ok (model_mean, model_variance).
Proof.
  destruct (q_sample_entries (toy_diffusion ObjEps)
              (tfull [2; 1; 8; 8]%nat 0.5) (tfull [2%nat] 0.5)
              (tfull [2; 1; 8; 8]%nat 0) (constant_rng 1)
              2%nat [1; 8; 8]%nat eq_refl eq_refl eq_refl)
    as (x & Hq & Hs & _).
  destruct (posterior_mean_exact_prediction (toy_diffusion ObjEps)
              (tfull [2; 1; 8; 8]%nat 0.5) (tfull [2; 1; 8; 8]%nat 0)
              x _ 0.5 0.25 _ _ 2%nat [1; 8; 8]%nat eq_refl eq_refl Hq)
    as (mm & mv & Hpmv & _).
  - reflexivity.
  - intros idx _. reflexivity.
  - exists x, mm, mv. split; [exact Hq | exact Hpmv].
Defined.

(** ** The sampling grid and the use of the generator *)

Lemma linspace_zero_iff (n i : nat) :
  (0 < n)%nat -> (linspace 1 0 (n + 1) i = 0 <-> i = n).
Proof.
  intros Hn. rewrite linspace_steps.
  assert (H0 : 0 < INR n) by (apply lt_0_INR; lia).
  split; intros H.
  - apply INR_eq.
    assert (INR i / INR n = 1) by lra.
    apply (Rmult_eq_compat_r (INR n)) in H1.
    unfold Rdiv in H1. rewrite Rmult_assoc, Rinv_l in H1 by lra. lra.
  - subst. unfold Rdiv. rewrite Rinv_r by lra. lra.
Qed.

(** X14. For at least one sampling step the grid of [p_sample_loop]
    starts at 1, ends exactly at 0, decreases strictly, stays in [0,1],
    and is zero at its last point only: the test [time_next == 0] of
    [p_sample] succeeds on the last transition and on no other. *)
Theorem sampling_grid (n : nat) :
  (0 < n)%nat ->
  let steps := linspace 1 0 (n + 1) in
  steps 0%nat = 1
  /\ steps n = 0
  /\ (forall i, (i < n)%nat -> steps (i + 1)%nat < steps i)
  /\ (forall i, (i <= n)%nat -> 0 <= steps i <= 1)
  /\ (forall i, (i < n)%nat -> (steps (i + 1)%nat = 0 <-> (i + 1)%nat = n)).
Proof.
  intros Hn steps. unfold steps.
  assert (H0 : 0 < INR n) by (apply lt_0_INR; lia).
  split; [|split; [|split; [|split]]].
  - rewrite linspace_steps. simpl. unfold Rdiv. lra.
  - now apply linspace_zero_iff.
  - intros i Hi. rewrite !linspace_steps, plus_INR. simpl INR.
    assert (0 < / INR n) by now apply Rinv_0_lt_compat.
    unfold Rdiv. nra.
  - intros i Hi. rewrite linspace_steps. now apply steps_in_unit.
  - intros i Hi. now apply linspace_zero_iff.
Qed.

Lemma sampling_grid_witness :
  linspace 1 0 (4 + 1) 0 = 1 /\ linspace 1 0 (4 + 1) 4 = 0.
Proof.
  destruct (sampling_grid 4 ltac:(lia)) as (H0 & H1 & _).
  split; [exact H0 | exact H1].
Defined.

Lemma p_sample_generator (d : GaussianDiffusion) (x : tensor)
  (time time_next : R) (g : rng) (b : nat) (rest : list nat) :
  shape x = b :: rest ->
  shape (d.(model) x (tfull [b] (d.(log_snr) time))) = shape x ->
  exists out : tensor,
    shape out = shape x
    /\ p_sample d x time time_next g
       = (Ok out, if Req_dec_T time_next 0 then g else snd (randn_like x g)).
Proof.
  intros Hx Hpred.
  destruct (p_mean_variance_ok d x time time_next b rest Hx Hpred)
    as (mm & Hpmv & Hshape).
  rewrite (p_sample_unfold d x time time_next b rest Hx).
  unfold bind at 1. unfold lift at 1. rewrite Hpmv.
  destruct (Req_dec_T time_next 0) as [E | NE].
  - exists mm. split; [exact Hshape | reflexivity].
  - rewrite bind_rand. unfold lift, tadd.
    rewrite tbin_same_shape
      by (cbn [tmap shape randn_like draw fst]; now rewrite Hshape).
    eexists. split; [|reflexivity]. exact Hshape.
Qed.

Lemma p_sample_steps_generator (d : GaussianDiffusion) (n : nat) :
  (forall x l, shape (d.(model) x l) = shape x) ->
  forall (k a : nat) (img : tensor) (g : rng) (b : nat) (rest : list nat),
    (a + k = n)%nat ->
    shape img = b :: rest ->
    exists (out : tensor) (g' : rng),
      p_sample_steps d (linspace 1 0 (n + 1)) (seq a k) img g = (Ok out, g')
      /\ shape out = shape img
      /\ tape g' = tape g
      /\ cursor g' = (cursor g + (k - 1) * numel (shape img))%nat.
Proof.
  intros Hmodel. induction k as [|k IH]; intros a img g b rest Hak Himg.
  - exists img, g. repeat split. simpl. lia.
  - cbn [seq p_sample_steps].
    destruct (p_sample_generator d img (linspace 1 0 (n + 1) a)
                (linspace 1 0 (n + 1) (a + 1)) g b rest Himg (Hmodel _ _))
      as (nx & Hsn & Hnx).
    rewrite (bind_ok _ _ _ _ _ Hnx).
    destruct (IH (S a) nx
                (if Req_dec_T (linspace 1 0 (n + 1) (a + 1)) 0
                 then g else snd (randn_like img g)) b rest)
      as (out & g' & Hout & Hs & Ht & Hc).
    { lia. }
    { now rewrite Hsn. }
    exists out, g'. split; [exact Hout|]. split; [now rewrite Hs|].
    rewrite Ht, Hc, Hsn.
    destruct (Req_dec_T (linspace 1 0 (n + 1) (a + 1)) 0) as [E | NE].
    + apply linspace_zero_iff in E; [|lia].
      replace k with 0%nat by lia. split; [reflexivity | simpl; lia].
    + assert (Hk : (a + 1 <> n)%nat).
      { intros E. apply NE. apply linspace_zero_iff; lia. }
      split; [reflexivity|]. cbn [randn_like draw snd cursor].
      destruct k as [|k]; [lia|]. simpl. lia.
Qed.

(** X15. For a denoiser whose prediction has the shape of its input,
    [sample] reads the generator's tape without changing it and
    advances its cursor by [max 1 num_sample_steps] times the number of
    elements of the output: one draw for the initial state, one for
    every transition but the last, none for the last. *)
Theorem sample_generator_use (d : GaussianDiffusion) (batch_size : nat)
  (g : rng) :
  (forall x l, shape (d.(model) x l) = shape x) ->
  exists (img : tensor) (g' : rng),
    sample d batch_size g = (Ok img, g')
    /\ tape g' = tape g
    /\ cursor g'
       = (cursor g
          + Nat.max 1 d.(num_sample_steps)
            * numel [batch_size; d.(channels); d.(image_size); d.(image_size)])%nat.
Proof.
  intros Hmodel.
  set (out_shape := [batch_size; channels d; image_size d; image_size d]).
  destruct (p_sample_steps_generator d (num_sample_steps d) Hmodel
              (num_sample_steps d) 0%nat (fst (randn out_shape g))
              (snd (randn out_shape g)) batch_size
              [channels d; image_size d; image_size d] eq_refl eq_refl)
    as (xf & g' & Hchain & _ & Ht & Hc).
  exists (unnormalize_to_zero_to_one (tmap (clamp (-1) 1) xf)), g'.
  split; [|split].
  - unfold sample, p_sample_loop. rewrite bind_rand. fold out_shape.
    rewrite (bind_ok _ _ _ _ _ Hchain). reflexivity.
  - exact Ht.
  - rewrite Hc. cbn [randn draw snd fst cursor shape]. fold out_shape.
    destruct (num_sample_steps d) as [|n]; simpl Nat.max; nia.
Qed.

Lemma sample_generator_use_witness :
  exists (img : tensor) (g' : rng),
    sample (toy_diffusion ObjEps) 2 (constant_rng 1) = (Ok img, g')
    /\ cursor g' = 512%nat.
Proof.
  destruct (sample_generator_use (toy_diffusion ObjEps) 2 (constant_rng 1))
    as (img & g' & Hs & _ & Hc).
  - intros x l. reflexivity.
  - exists img, g'. split; [exact Hs | exact Hc].
Defined.

(** ** The value of the loss *)

Lemma sum_nonneg (l : list R) :
  (forall v, In v l -> 0 <= v) -> 0 <= fold_right Rplus 0 l.
Proof.
  induction l as [|v l IH]; simpl; intros H; [lra|].
  pose proof (H v (or_introl eq_refl)).
  assert (0 <= fold_right Rplus 0 l) by (apply IH; intros; apply H; now right).
  lra.
Qed.

Lemma sum_zero_iff (l : list R) :
  (forall v, In v l -> 0 <= v) ->
  (fold_right Rplus 0 l = 0 <-> forall v, In v l -> v = 0).
Proof.
  induction l as [|v l IH]; simpl; intros H.
  - split; [intros _ v [] | reflexivity].
  - pose proof (H v (or_introl eq_refl)) as Hv.
    assert (Hl : forall w, In w l -> 0 <= w) by (intros; apply H; now right).
    pose proof (sum_nonneg l Hl) as Hs. specialize (IH Hl).
    split.
    + intros E w [<- | Hw]; [lra|]. apply IH; [lra | exact Hw].
    + intros E. rewrite (E v (or_introl eq_refl)).
      rewrite (proj2 IH); [lra|]. intros w Hw. apply E. now right.
Qed.

Lemma in_shape_indices (s idx : list nat) :
  in_shape idx s -> In idx (indices s).
Proof.
  intros H. induction H as [|i d idx s Hid _ IH]; simpl; [now left|].
  apply in_flat_map. exists i. split; [apply in_seq; lia|].
  now apply in_map.
Qed.

Lemma numel_indices (s : list nat) : length (indices s) = numel s.
Proof.
  induction s as [|d s IH]; simpl; [reflexivity|].
  fold (numel s). rewrite <- IH. generalize 0%nat.
  induction d as [|d IHd]; intros a; simpl; [reflexivity|].
  rewrite length_app, length_map, IHd. reflexivity.
Qed.


Lemma mean_squared_error_zero_iff (pred target : tensor) :
  (0 < numel (shape target))%nat ->
  (mean_squared_error pred target = 0
   <-> forall idx, in_shape idx (shape target) ->
         entry pred idx = entry target idx).
Proof.
  intros Hn. unfold mean_squared_error.
  assert (Hpos : 0 < INR (numel (shape target))) by now apply lt_0_INR.
  assert (Hsq : forall v,
             In v (map (fun idx => (entry pred idx - entry target idx) ^ 2)
                       (indices (shape target))) -> 0 <= v).
  { intros v Hv. apply in_map_iff in Hv as (idx & <- & _). apply pow2_ge_0. }
  split.
  - intros H idx Hidx.
    assert (Hsum : fold_right Rplus 0
                     (map (fun idx => (entry pred idx - entry target idx) ^ 2)
                          (indices (shape target))) = 0).
    { apply (Rmult_eq_compat_r (INR (numel (shape target)))) in H.
      unfold Rdiv in H. rewrite Rmult_assoc, Rinv_l, Rmult_0_l in H by lra.
      lra. }
    pose proof (proj1 (sum_zero_iff _ Hsq) Hsum
                  ((entry pred idx - entry target idx) ^ 2)) as Hz.
    assert (E : (entry pred idx - entry target idx) ^ 2 = 0).
    { apply Hz. apply in_map_iff. exists idx. split; [reflexivity|].
      now apply in_shape_indices. }
    simpl in E. nra.
  - intros H.
    rewrite (proj2 (sum_zero_iff _ Hsq)); [unfold Rdiv; ring|].
    intros v Hv. apply in_map_iff in Hv as (idx & <- & Hin).
    rewrite (H idx (indices_in_shape _ _ Hin)). simpl. ring.
Qed.




(** X17. Under the same conditions and for a batch with at least one
    element, the loss returned by [forward] is zero exactly when the
    denoiser's prediction equals, at every index of the batch, the noise
    used for the corruption. *)
Theorem forward_loss_zero_iff (d : GaussianDiffusion) (img : tensor)
  (noise : option tensor) (g : rng) (b c : nat) :
  shape img = [b; c; d.(image_size); d.(image_size)] ->
  (0 < numel (shape img))%nat ->
  (forall n, noise = Some n -> shape n = shape img) ->
  (forall x l, shape (d.(model) x l) = shape x) ->
  exists (noise_used x : tensor) (loss : R) (g1 g' : rng),
    default_noise noise (normalize_to_neg_one_to_one img)
      (snd (uniform_ [b] g)) = (Ok noise_used, g1)
    /\ q_sample d (normalize_to_neg_one_to_one img) (fst (uniform_ [b] g))
         (Some noise_used) g1
       = (Ok (x, tmap d.(log_snr) (fst (uniform_ [b] g))), g1)
    /\ forward d img noise g = (Ok loss, g')
    /\ (loss = 0
        <-> forall idx, in_shape idx (shape img) ->
              entry (d.(model) x (tmap d.(log_snr) (fst (uniform_ [b] g)))) idx
              = entry noise_used idx).
Proof.
  intros Hs Hpos Hnoise Hmodel.
  rewrite (forward_accepted d img noise b c Hs), bind_rand.
  destruct (p_losses_returns_mse d (normalize_to_neg_one_to_one img)
              (fst (uniform_ [b] g)) noise (snd (uniform_ [b] g))
              b [c; d.(image_size); d.(image_size)])
    as (n & x & g' & Hdef & Hq & Hloss).
  - cbn [normalize_to_neg_one_to_one tmap shape]. exact Hs.
  - reflexivity.
  - exact Hnoise.
  - exact Hmodel.
  - assert (Hn : shape n = shape img).
    { destruct noise as [n0|];
        cbn [default_noise ret rand randn_like draw] in Hdef;
        injection Hdef as <- _; [now apply Hnoise | reflexivity]. }
    eexists n, x, _, g', g'. split; [exact Hdef|]. split; [exact Hq|].
    split; [exact Hloss|].
    rewrite <- Hn. apply mean_squared_error_zero_iff. now rewrite Hn.
Qed.

Lemma forward_loss_zero_iff_witness :
  exists (loss : R) (g' : rng),
    forward (toy_diffusion ObjEps) (tfull [2; 1; 8; 8]%nat 0.5)
      (Some (tfull [2; 1; 8; 8]%nat 0)) (constant_rng 1) = (Ok loss, g')
    /\ loss = 0.
Proof.
  destruct (forward_loss_zero_iff (toy_diffusion ObjEps)
              (tfull [2; 1; 8; 8]%nat 0.5) (Some (tfull [2; 1; 8; 8]%nat 0))
              (constant_rng 1) 2%nat 1%nat eq_refl)
    as (n & x & loss & g1 & g' & Hdef & _ & Hf & Hz).
  - simpl. lia.
  - intros n Hn. injection Hn as <-. reflexivity.
  - intros x l. reflexivity.
  - exists loss, g'. split; [exact Hf|]. apply Hz.
    injection Hdef as <- _. intros idx _. reflexivity.
Defined.

(** * Properties of the denoiser's building blocks *)

(** ** Finite sums *)

Lemma sum_map_ext (f h : nat -> R) (l : list nat) :
  (forall j, In j l -> f j = h j) ->
  fold_right Rplus 0 (map f l) = fold_right Rplus 0 (map h l).
Proof.
  induction l as [|j l IH]; simpl; intros H; [reflexivity|].
  rewrite (H j (or_introl eq_refl)), IH; [reflexivity|].
  intros k Hk. apply H. now right.
Qed.

Lemma sum_upto_ext (d : nat) (f h : nat -> R) :
  (forall j, (j < d)%nat -> f j = h j) -> sum_upto d f = sum_upto d h.
Proof.
  intros H. apply sum_map_ext. intros j Hj. apply in_seq in Hj. apply H. lia.
Qed.

Lemma sum_upto_plus (d : nat) (f h : nat -> R) :
  sum_upto d (fun j => f j + h j) = sum_upto d f + sum_upto d h.
Proof.
  unfold sum_upto. induction (seq 0 d) as [|j l IH]; simpl; [lra|].
  rewrite IH. lra.
Qed.

Lemma sum_upto_scal (d : nat) (a : R) (f : nat -> R) :
  sum_upto d (fun j => a * f j) = a * sum_upto d f.
Proof.
  unfold sum_upto. induction (seq 0 d) as [|j l IH]; simpl; [lra|].
  rewrite IH. lra.
Qed.

Lemma sum_upto_const (d : nat) (v : R) :
  sum_upto d (fun _ => v) = INR d * v.
Proof.
  unfold sum_upto.
  assert (H : forall l : list nat,
             fold_right Rplus 0 (map (fun _ => v) l) = INR (length l) * v).
  { induction l as [|j l IH]; [simpl; lra|].
    cbn [map fold_right length]. rewrite IH, S_INR. lra. }
  now rewrite H, length_seq.
Qed.

Lemma row_mean_shift (d : nat) (f : nat -> R) (v : R) :
  (0 < d)%nat -> row_mean d (fun j => f j + v) = row_mean d f + v.
Proof.
  intros Hd. unfold row_mean.
  rewrite sum_upto_plus, sum_upto_const.
  assert (0 < INR d) by now apply lt_0_INR. field. lra.
Qed.

Lemma row_var_shift (d : nat) (f : nat -> R) (v : R) :
  (0 < d)%nat -> row_var d (fun j => f j + v) = row_var d f.
Proof.
  intros Hd. unfold row_var. rewrite (row_mean_shift d f v Hd).
  f_equal. apply sum_upto_ext. intros j _. ring.
Qed.

Lemma row_mean_const (d : nat) (f : nat -> R) (v : R) :
  (0 < d)%nat -> (forall j, (j < d)%nat -> f j = v) -> row_mean d f = v.
Proof.
  intros Hd H. unfold row_mean.
  rewrite (sum_upto_ext d f (fun _ => v) H), sum_upto_const.
  assert (0 < INR d) by now apply lt_0_INR. field. lra.
Qed.

Lemma row_centred_sum (d : nat) (f : nat -> R) :
  (0 < d)%nat -> sum_upto d (fun j => f j - row_mean d f) = 0.
Proof.
  intros Hd.
  rewrite (sum_upto_ext d _ (fun j => f j + - row_mean d f))
    by (intros; ring).
  rewrite sum_upto_plus, sum_upto_const. unfold row_mean.
  assert (0 < INR d) by now apply lt_0_INR. field. lra.
Qed.

Lemma row_var_nonneg (d : nat) (f : nat -> R) : 0 <= row_var d f.
Proof.
  unfold row_var, Rdiv. apply Rmult_le_pos.
  - apply sum_nonneg. intros v Hv. apply in_map_iff in Hv as (j & <- & _).
    apply pow2_ge_0.
  - destruct d as [|d]; [simpl; rewrite Rinv_0; lra|].
    left. apply Rinv_0_lt_compat, lt_0_INR. lia.
Qed.

Lemma mask_lt (b i : nat) :
  (i < b)%nat -> (if (b =? 1)%nat then 0%nat else i) = i.
Proof.
  intros H. destruct (b =? 1)%nat eqn:E; [|reflexivity].
  apply Nat.eqb_eq in E. lia.
Qed.

Lemma norm_eps_pos (dt : dtype) : 0 < norm_eps dt.
Proof. destruct dt; unfold norm_eps; lra. Qed.

(** ** LayerNorm *)

Lemma LayerNorm_entries (self : LayerNorm) (dt : dtype) (x : tensor)
  (b n d : nat) :
  shape x = [b; n; d] ->
  ln_wf self d ->
  exists out : tensor,
    LayerNorm_forward self dt x = Ok out
    /\ shape out = [b; n; d]
    /\ forall i j c, (i < b)%nat -> (j < n)%nat -> (c < d)%nat ->
         entry out [i; j; c]
         = (entry x [i; j; c] - row_mean d (fun k => entry x [i; j; k]))
           * rsqrt (clamp_min (norm_eps dt)
                      (row_var d (fun k => entry x [i; j; k])))
           * ln_scale self c.
Proof.
  destruct x as [s e]. cbn [shape]. intros -> Hwf.
  unfold LayerNorm_forward, mean_last, var_last, tsub, tmul. cbv zeta.
  cbn [shape length Nat.sub].
  rewrite (tbin_eq Rminus _ _ [b; n; d])
    by (cbn [shape reduce_mean set_nth firstn skipn app];
        rewrite broadcast_shapes_same_rank by reflexivity;
        cbn [bdims]; now rewrite !bdim_refl, bdim_one_r).
  cbn [rbind shape].
  rewrite (tbin_eq Rmult _ _ [b; n; d])
    by (cbn [shape tmap reduce_var set_nth firstn skipn app];
        rewrite broadcast_shapes_same_rank by reflexivity;
        cbn [bdims]; now rewrite !bdim_refl, bdim_one_r).
  cbn [rbind shape].
  unfold times_g, ln_scale, ln_wf in *.
  destruct (ln_g self) as [g|].
  - unfold tmul. rewrite (tbin_eq Rmult _ g [b; n; d])
      by (cbn [shape]; rewrite Hwf;
          rewrite broadcast_shapes_same_rank by reflexivity;
          cbn [bdims]; now rewrite bdim_refl, !bdim_one_r).
    eexists. split; [reflexivity|]. split; [reflexivity|].
    intros i j c Hi Hj Hc. cbn [entry shape tmap reduce_mean reduce_var].
    rewrite Hwf. unfold bidx.
    cbn [length Nat.sub skipn combine map fst snd set_nth firstn app nth
         Nat.eqb].
    rewrite !(mask_lt b i Hi), !(mask_lt n j Hj), !(mask_lt d c Hc).
    reflexivity.
  - eexists. split; [reflexivity|]. split; [reflexivity|].
    intros i j c Hi Hj Hc. cbn [entry shape tmap reduce_mean reduce_var].
    unfold bidx.
    cbn [length Nat.sub skipn combine map fst snd set_nth firstn app nth
         Nat.eqb].
    rewrite !(mask_lt b i Hi), !(mask_lt n j Hj), !(mask_lt d c Hc).
    reflexivity.
Qed.

(** X18. [LayerNorm.forward] on a tensor [b; n; d] returns a tensor of
    the same shape and does not see a constant added to its input:
    shifting every entry of [x] by the same number leaves every entry of
    the output unchanged, with or without the learned scale. *)
Theorem LayerNorm_shift_invariant (self : LayerNorm) (dt : dtype) (x : tensor)
  (b n d : nat) (v : R) :
  shape x = [b; n; d] ->
  ln_wf self d ->
  exists out out' : tensor,
    LayerNorm_forward self dt x = Ok out
    /\ LayerNorm_forward self dt (tmap (fun a => a + v) x) = Ok out'
    /\ shape out = [b; n; d]
    /\ shape out' = [b; n; d]
    /\ forall i j c, (i < b)%nat -> (j < n)%nat -> (c < d)%nat ->
         entry out' [i; j; c] = entry out [i; j; c].
Proof.
  intros Hx Hwf.
  destruct (LayerNorm_entries self dt x b n d Hx Hwf) as (out & Ho & Hs & He).
  destruct (LayerNorm_entries self dt (tmap (fun a => a + v) x) b n d Hx Hwf)
    as (out' & Ho' & Hs' & He').
  exists out, out'. repeat split; try assumption.
  intros i j c Hi Hj Hc.
  rewrite (He i j c Hi Hj Hc), (He' i j c Hi Hj Hc). cbn [tmap entry].
  assert (Hd : (0 < d)%nat) by lia.
  rewrite (row_mean_shift d (fun k => entry x [i; j; k]) v Hd).
  rewrite (row_var_shift d (fun k => entry x [i; j; k]) v Hd).
  f_equal. f_equal. ring.
Qed.

Lemma LayerNorm_shift_invariant_witness :
  exists out out' : tensor,
    LayerNorm_forward (LayerNorm_init 4 true) Float32
      (tfull [2; 3; 4]%nat 0.5) = Ok out
    /\ LayerNorm_forward (LayerNorm_init 4 true) Float32
         (tmap (fun a => a + 1) (tfull [2; 3; 4]%nat 0.5)) = Ok out'
    /\ shape out' = [2; 3; 4]%nat.
Proof.
  destruct (LayerNorm_shift_invariant (LayerNorm_init 4 true) Float32
              (tfull [2; 3; 4]%nat 0.5) 2 3 4 1 eq_refl eq_refl)
    as (out & out' & Ho & Ho' & _ & Hs' & _).
  exists out, out'. split; [exact Ho|]. split; [exact Ho' | exact Hs'].
Defined.

(** X19. [LayerNorm.forward] centres every row: on a tensor [b; n; d]
    a row that is constant is sent to zeros (the floor on the variance
    keeps the division defined), and without the learned scale the
    entries of every output row sum to zero. *)
Theorem LayerNorm_centred (self : LayerNorm) (dt : dtype) (x : tensor)
  (b n d : nat) :
  shape x = [b; n; d] ->
  ln_wf self d ->
  exists out : tensor,
    LayerNorm_forward self dt x = Ok out
    /\ (forall i j (v : R), (i < b)%nat -> (j < n)%nat ->
          (forall k, (k < d)%nat -> entry x [i; j; k] = v) ->
          forall c, (c < d)%nat -> entry out [i; j; c] = 0)
    /\ (self.(ln_g) = None ->
        forall i j, (i < b)%nat -> (j < n)%nat -> (0 < d)%nat ->
          sum_upto d (fun c => entry out [i; j; c]) = 0).
Proof.
  intros Hx Hwf.
  destruct (LayerNorm_entries self dt x b n d Hx Hwf) as (out & Ho & _ & He).
  exists out. split; [exact Ho|]. split.
  - intros i j v Hi Hj Hconst c Hc. rewrite (He i j c Hi Hj Hc).
    rewrite (row_mean_const d _ v) by (try lia; exact Hconst).
    rewrite (Hconst c Hc). ring.
  - intros Hg i j Hi Hj Hd.
    rewrite (sum_upto_ext d _
               (fun c => rsqrt (clamp_min (norm_eps dt)
                                  (row_var d (fun k => entry x [i; j; k])))
                         * (entry x [i; j; c]
                            - row_mean d (fun k => entry x [i; j; k])))).
    + rewrite sum_upto_scal, (row_centred_sum d _ Hd). ring.
    + intros c Hc. rewrite (He i j c Hi Hj Hc). unfold ln_scale.
      rewrite Hg. ring.
Qed.

Lemma LayerNorm_centred_witness :
  exists out : tensor,
    LayerNorm_forward (LayerNorm_init 4 false) Float32
      (tfull [2; 3; 4]%nat 0.5) = Ok out
    /\ entry out [0; 0; 0]%nat = 0
    /\ sum_upto 4 (fun c => entry out [0; 0; c]%nat) = 0.
Proof.
  destruct (LayerNorm_centred (LayerNorm_init 4 false) Float32
              (tfull [2; 3; 4]%nat 0.5) 2 3 4 eq_refl I)
    as (out & Ho & Hz & Hsum).
  exists out. split; [exact Ho|]. split.
  - apply (Hz 0%nat 0%nat 0.5); try lia. intros k _. reflexivity.
  - apply Hsum; try lia. reflexivity.
Defined.

(** X20. Without the learned scale, every row of the output of
    [LayerNorm.forward] has mean square [var / max var eps], where [var]
    is the biased variance of the input row and [eps] the floor chosen
    from the element type: exactly one when the variance reaches the
    floor, and less than one below it. *)
Theorem LayerNorm_unit_variance (self : LayerNorm) (dt : dtype) (x : tensor)
  (b n d : nat) :
  shape x = [b; n; d] ->
  self.(ln_g) = None ->
  exists out : tensor,
    LayerNorm_forward self dt x = Ok out
    /\ forall i j, (i < b)%nat -> (j < n)%nat -> (0 < d)%nat ->
         let var := row_var d (fun k => entry x [i; j; k]) in
         let out_ms := sum_upto d (fun c => entry out [i; j; c] ^ 2) / INR d in
         out_ms = var / Rmax var (norm_eps dt)
         /\ (norm_eps dt <= var -> out_ms = 1)
         /\ (var < norm_eps dt -> out_ms < 1).
Proof.
  intros Hx Hg.
  assert (Hwf : ln_wf self d) by (unfold ln_wf; now rewrite Hg).
  destruct (LayerNorm_entries self dt x b n d Hx Hwf) as (out & Ho & _ & He).
  exists out. split; [exact Ho|].
  intros i j Hi Hj Hd var out_ms.
  pose proof (norm_eps_pos dt) as Heps.
  pose proof (row_var_nonneg d (fun k => entry x [i; j; k])) as Hv.
  fold var in Hv.
  assert (Hmax : 0 < Rmax var (norm_eps dt)).
  { apply Rlt_le_trans with (norm_eps dt); [exact Heps | apply Rmax_r]. }
  assert (Hms : out_ms = var / Rmax var (norm_eps dt)).
  { unfold out_ms.
    rewrite (sum_upto_ext d _
               (fun c => / Rmax var (norm_eps dt)
                         * (entry x [i; j; c]
                            - row_mean d (fun k => entry x [i; j; k])) ^ 2)).
    - rewrite sum_upto_scal. unfold var at 2, row_var. field.
      split; [|lra]. apply not_0_INR. lia.
    - intros c Hc. rewrite (He i j c Hi Hj Hc). unfold ln_scale.
      rewrite Hg. unfold rsqrt, clamp_min. fold var.
      assert (Hs : sqrt (Rmax var (norm_eps dt))
                   * sqrt (Rmax var (norm_eps dt))
                   = Rmax var (norm_eps dt)) by (apply sqrt_sqrt; lra).
      assert (Hsp : 0 < sqrt (Rmax var (norm_eps dt)))
        by now apply sqrt_lt_R0.
      transitivity
        ((entry x [i; j; c] - row_mean d (fun k => entry x [i; j; k])) ^ 2
         / (sqrt (Rmax var (norm_eps dt)) * sqrt (Rmax var (norm_eps dt))));
        [field; lra | rewrite Hs; field; lra]. }
  split; [exact Hms|]. split.
  - intros H. rewrite Hms, Rmax_left by exact H. field. lra.
  - intros H. rewrite Hms, Rmax_right by lra.
    apply Rmult_lt_reg_r with (norm_eps dt); [exact Heps|].
    unfold Rdiv. rewrite Rmult_assoc, Rinv_l by lra. lra.
Qed.

Lemma LayerNorm_unit_variance_witness :
  exists out : tensor,
    LayerNorm_forward (LayerNorm_init 4 false) OtherDtype
      (tfull [2; 3; 4]%nat 0.5) = Ok out
    /\ sum_upto 4 (fun c => entry out [0; 0; c]%nat ^ 2) / INR 4 < 1.
Proof.
  destruct (LayerNorm_unit_variance (LayerNorm_init 4 false) OtherDtype
              (tfull [2; 3; 4]%nat 0.5) 2 3 4 eq_refl eq_refl)
    as (out & Ho & Hv).
  exists out. split; [exact Ho|].
  destruct (Hv 0%nat 0%nat ltac:(lia) ltac:(lia) ltac:(lia)) as (_ & _ & Hlt).
  apply Hlt. cbn [tfull entry].
  unfold row_var. rewrite (row_mean_const 4 _ 0.5) by (try lia; reflexivity).
  rewrite (sum_upto_ext 4 _ (fun _ => 0)) by (intros; ring).
  rewrite sum_upto_const. unfold norm_eps. simpl INR. lra.
Defined.

(** ** ConvLayerNorm *)

Lemma ConvLayerNorm_entries (self : ConvLayerNorm) (dt : dtype) (x : tensor)
  (b c h w : nat) :
  shape x = [b; c; h; w] ->
  cln_wf self c ->
  exists out : tensor,
    ConvLayerNorm_forward self dt x = Ok out
    /\ shape out = [b; c; h; w]
    /\ forall i k y z, (i < b)%nat -> (k < c)%nat -> (y < h)%nat ->
         (z < w)%nat ->
         entry out [i; k; y; z]
         = (entry x [i; k; y; z] - row_mean c (fun q => entry x [i; q; y; z]))
           * rsqrt (clamp_min (norm_eps dt)
                      (row_var c (fun q => entry x [i; q; y; z])))
           * cln_scale self k.
Proof.
  destruct x as [s e]. cbn [shape]. intros -> Hwf.
  unfold ConvLayerNorm_forward, mean_dim1, var_dim1, tsub, tmul. cbv zeta.
  cbn [shape length Nat.leb rbind].
  rewrite (tbin_eq Rminus _ _ [b; c; h; w])
    by (cbn [shape reduce_mean set_nth firstn skipn app];
        rewrite broadcast_shapes_same_rank by reflexivity;
        cbn [bdims]; now rewrite !bdim_refl, bdim_one_r).
  cbn [rbind shape].
  rewrite (tbin_eq Rmult _ _ [b; c; h; w])
    by (cbn [shape tmap reduce_var set_nth firstn skipn app];
        rewrite broadcast_shapes_same_rank by reflexivity;
        cbn [bdims]; now rewrite !bdim_refl, bdim_one_r).
  cbn [rbind shape].
  unfold times_g, cln_scale, cln_wf in *.
  destruct (cln_g self) as [g|].
  - unfold tmul. rewrite (tbin_eq Rmult _ g [b; c; h; w])
      by (cbn [shape]; rewrite Hwf;
          rewrite broadcast_shapes_same_rank by reflexivity;
          cbn [bdims]; now rewrite bdim_refl, !bdim_one_r).
    eexists. split; [reflexivity|]. split; [reflexivity|].
    intros i k y z Hi Hk Hy Hz.
    cbn [entry shape tmap reduce_mean reduce_var].
    rewrite Hwf. unfold bidx.
    cbn [length Nat.sub skipn combine map fst snd set_nth firstn app nth
         Nat.eqb].
    rewrite !(mask_lt b i Hi), !(mask_lt c k Hk), !(mask_lt h y Hy),
      !(mask_lt w z Hz).
    reflexivity.
  - eexists. split; [reflexivity|]. split; [reflexivity|].
    intros i k y z Hi Hk Hy Hz.
    cbn [entry shape tmap reduce_mean reduce_var].
    unfold bidx.
    cbn [length Nat.sub skipn combine map fst snd set_nth firstn app nth
         Nat.eqb].
    rewrite !(mask_lt b i Hi), !(mask_lt c k Hk), !(mask_lt h y Hy),
      !(mask_lt w z Hz).
    reflexivity.
Qed.

(** X21. [ConvLayerNorm.forward] normalises across the channels: a
    tensor of rank below two has no dimension 1 and raises [IndexError];
    on a tensor [b; c; h; w] the output has the same shape, a pixel
    whose channels are all equal is sent to zeros, and without the
    learned scale the channels of every output pixel sum to zero. *)
Theorem ConvLayerNorm_centred (self : ConvLayerNorm) (dt : dtype) (x : tensor) :
  ((length (shape x) < 2)%nat ->
   ConvLayerNorm_forward self dt x = Raise IndexError)
  /\ (forall b c h w,
        shape x = [b; c; h; w] ->
        cln_wf self c ->
        exists out : tensor,
          ConvLayerNorm_forward self dt x = Ok out
          /\ shape out = [b; c; h; w]
          /\ (forall i y z (v : R), (i < b)%nat -> (y < h)%nat -> (z < w)%nat ->
                (forall q, (q < c)%nat -> entry x [i; q; y; z] = v) ->
                forall k, (k < c)%nat -> entry out [i; k; y; z] = 0)
          /\ (self.(cln_g) = None ->
              forall i y z, (i < b)%nat -> (y < h)%nat -> (z < w)%nat ->
                (0 < c)%nat ->
                sum_upto c (fun k => entry out [i; k; y; z]) = 0)).
Proof.
  split.
  - intros H. unfold ConvLayerNorm_forward, var_dim1. cbv zeta.
    destruct (Nat.leb_spec 2 (length (shape x))) as [L | L]; [lia|].
    reflexivity.
  - intros b c h w Hx Hwf.
    destruct (ConvLayerNorm_entries self dt x b c h w Hx Hwf)
      as (out & Ho & Hs & He).
    exists out. split; [exact Ho|]. split; [exact Hs|]. split.
    + intros i y z v Hi Hy Hz Hconst k Hk. rewrite (He i k y z Hi Hk Hy Hz).
      rewrite (row_mean_const c _ v) by (try lia; exact Hconst).
      rewrite (Hconst k Hk). ring.
    + intros Hg i y z Hi Hy Hz Hc.
      rewrite (sum_upto_ext c _
                 (fun k => rsqrt (clamp_min (norm_eps dt)
                                    (row_var c (fun q => entry x [i; q; y; z])))
                           * (entry x [i; k; y; z]
                              - row_mean c (fun q => entry x [i; q; y; z])))).
      * rewrite sum_upto_scal, (row_centred_sum c _ Hc). ring.
      * intros k Hk. rewrite (He i k y z Hi Hk Hy Hz). unfold cln_scale.
        rewrite Hg. ring.
Qed.

Lemma ConvLayerNorm_centred_witness :
  ConvLayerNorm_forward (ConvLayerNorm_init 3 true) Float32 (tfull [5%nat] 1)
  = Raise IndexError
  /\ exists out : tensor,
       ConvLayerNorm_forward (ConvLayerNorm_init 3 true) Float32
         (tfull [2; 3; 8; 8]%nat 0.5) = Ok out
       /\ shape out = [2; 3; 8; 8]%nat.
Proof.
  split.
  - apply (proj1 (ConvLayerNorm_centred (ConvLayerNorm_init 3 true) Float32
                    (tfull [5%nat] 1))).
    simpl. lia.
  - destruct (proj2 (ConvLayerNorm_centred (ConvLayerNorm_init 3 true) Float32
                       (tfull [2; 3; 8; 8]%nat 0.5)) 2 3 8 8 eq_refl eq_refl)%nat
      as (out & Ho & Hs & _).
    exists out. split; [exact Ho | exact Hs].
Defined.

(** ** The sinusoidal time embedding *)

Lemma nth_map_in {A B} (f : A -> B) (l : list A) (i : nat) (da : A) (db : B) :
  (i < length l)%nat -> nth i (map f l) db = f (nth i l da).
Proof.
  intros H. rewrite (nth_indep _ db (f da)) by (now rewrite length_map).
  apply map_nth.
Qed.

(** X22. The embedding constructor raises [AssertionError] for an odd
    [dim] without drawing anything; for an even [dim] it draws
    [dim / 2] frequencies. The embedding it builds maps a vector of [b]
    values to [b] rows of [dim + 1] entries: row [i] starts with the
    value [x_i] itself, followed by [dim / 2] sines and [dim / 2]
    cosines of the same angles, so the square of the [j]-th sine plus
    the square of the [j]-th cosine is one. *)
Theorem SinusoidalPosEmb_rows (dim : nat) (is_random : bool) (g : rng) :
  ((dim mod 2 <> 0)%nat ->
   SinusoidalPosEmb_init dim is_random g = (Raise AssertionError, g))
  /\ ((dim mod 2 = 0)%nat ->
      exists (self : SinusoidalPosEmb) (g' : rng),
        SinusoidalPosEmb_init dim is_random g = (Ok self, g')
        /\ tape g' = tape g
        /\ cursor g' = (cursor g + dim / 2)%nat
        /\ length self.(weights) = (dim / 2)%nat
        /\ forall x : list R,
             length (SinusoidalPosEmb_forward self x) = length x
             /\ forall i, (i < length x)%nat ->
                  let row := nth i (SinusoidalPosEmb_forward self x) [] in
                  length row = (dim + 1)%nat
                  /\ nth 0 row 0 = nth i x 0
                  /\ forall j, (j < dim / 2)%nat ->
                       nth (1 + j) row 0
                       = sin (nth i x 0 * nth j self.(weights) 0 * 2 * PI)
                       /\ nth (1 + dim / 2 + j) row 0
                          = cos (nth i x 0 * nth j self.(weights) 0 * 2 * PI)
                       /\ nth (1 + j) row 0 ^ 2
                          + nth (1 + dim / 2 + j) row 0 ^ 2 = 1).
Proof.
  unfold SinusoidalPosEmb_init. split; intros Hdim.
  - destruct (Nat.eqb_spec (dim mod 2) 0) as [E | _]; [contradiction|].
    reflexivity.
  - rewrite Hdim. cbn [Nat.eqb]. rewrite bind_rand. unfold ret.
    eexists _, _. split; [reflexivity|].
    cbn [randn draw snd fst tape cursor weights numel fold_right].
    split; [reflexivity|]. split; [f_equal; lia|].
    assert (Hlen : length (map (fun j : nat =>
                      entry {| shape := [(dim / 2)%nat];
                               entry := fun idx =>
                                 tape g (cursor g + ravel [(dim / 2)%nat] idx) |}
                            [j]) (seq 0 (dim / 2))) = (dim / 2)%nat).
    { now rewrite length_map, length_seq. }
    split; [exact Hlen|].
    set (ws := map _ (seq 0 (dim / 2))) in *.
    intros x. unfold SinusoidalPosEmb_forward. cbn [weights].
    split; [apply length_map|].
    intros i Hi. cbv zeta.
    rewrite (nth_map_in _ x i 0 []) by exact Hi.
    set (xi := nth i x 0).
    split.
    { cbn [length]. rewrite length_app, !length_map, Hlen.
      pose proof (Nat.div_mod_eq dim 2). lia. }
    split; [reflexivity|].
    intros j Hj.
    assert (Hs : nth (1 + j)
                   (xi :: map sin (map (fun w => xi * w * 2 * PI) ws)
                          ++ map cos (map (fun w => xi * w * 2 * PI) ws)) 0
                 = sin (xi * nth j ws 0 * 2 * PI)).
    { cbn [Nat.add nth]. rewrite app_nth1 by (rewrite !length_map; lia).
      rewrite (nth_map_in sin _ j 0 0) by (rewrite length_map; lia).
      now rewrite (nth_map_in _ ws j 0 0) by lia. }
    assert (Hc : nth (1 + dim / 2 + j)
                   (xi :: map sin (map (fun w => xi * w * 2 * PI) ws)
                          ++ map cos (map (fun w => xi * w * 2 * PI) ws)) 0
                 = cos (xi * nth j ws 0 * 2 * PI)).
    { cbn [Nat.add nth]. rewrite app_nth2 by (rewrite !length_map; lia).
      rewrite !length_map, Hlen.
      replace (dim / 2 + j - dim / 2)%nat with j by lia.
      rewrite (nth_map_in cos _ j 0 0) by (rewrite length_map; lia).
      now rewrite (nth_map_in _ ws j 0 0) by lia. }
    split; [exact Hs|]. split; [exact Hc|].
    rewrite Hs, Hc. simpl pow. rewrite !Rmult_1_r.
    pose proof (sin2_cos2 (xi * nth j ws 0 * 2 * PI)) as H.
    unfold Rsqr in H. exact H.
Qed.

Lemma SinusoidalPosEmb_rows_witness :
  SinusoidalPosEmb_init 3 false (constant_rng 1)
  = (Raise AssertionError, constant_rng 1)
  /\ exists (self : SinusoidalPosEmb) (g' : rng),
       SinusoidalPosEmb_init 16 false (constant_rng 1) = (Ok self, g')
       /\ cursor g' = 8%nat.
Proof.
  split.
  - apply (proj1 (SinusoidalPosEmb_rows 3 false (constant_rng 1))).
    simpl. lia.
  - destruct (proj2 (SinusoidalPosEmb_rows 16 false (constant_rng 1)) eq_refl)
      as (self & g' & Hi & _ & Hc & _).
    exists self, g'. split; [exact Hi | exact Hc].
Defined.

(** ** The channel plan *)

Lemma nth_combine_removelast (a : nat) (l : list nat) (i : nat) :
  (i < length l)%nat ->
  nth i (combine (removelast (a :: l)) l) (0, 0)%nat
  = (nth i (a :: l) 0%nat, nth i l 0%nat).
Proof.
  revert a i. induction l as [|x l IH]; intros a i Hi; [simpl in Hi; lia|].
  destruct i as [|i].
  - reflexivity.
  - change (removelast (a :: x :: l)) with (a :: removelast (x :: l)).
    cbn [combine nth]. apply IH. simpl in Hi. lia.
Qed.

Lemma length_combine_removelast (a : nat) (l : list nat) :
  length (combine (removelast (a :: l)) l) = length l.
Proof.
  revert a. induction l as [|x l IH]; intros a; [reflexivity|].
  change (removelast (a :: x :: l)) with (a :: removelast (x :: l)).
  cbn [combine length]. now rewrite IH.
Qed.

(** X23. The channel plan of [UViT.__init__] has one stage per entry of
    [dim_mults]; stage [i] goes from the output width of stage [i - 1]
    (from [init_dim], or [dim] when it is not given, for the first
    stage) to [dim * dim_mults[i]], so that every stage starts at the
    width where the previous one ends; and the transformer in the
    middle works at the last width of the plan, which is [init_dim]
    when [dim_mults] is empty. *)
Theorem uvit_channel_plan (dim : nat) (init_dim : option nat)
  (dim_mults : list nat) :
  let first := match init_dim with Some v => v | None => dim end in
  let in_out := uvit_in_out dim init_dim dim_mults in
  length in_out = length dim_mults
  /\ (forall i, (i < length dim_mults)%nat ->
        snd (nth i in_out (0, 0)%nat) = (dim * nth i dim_mults 0)%nat)
  /\ ((0 < length dim_mults)%nat -> fst (nth 0 in_out (0, 0)%nat) = first)
  /\ (forall i, (i + 1 < length dim_mults)%nat ->
        fst (nth (i + 1) in_out (0, 0)%nat) = snd (nth i in_out (0, 0)%nat))
  /\ uvit_mid_dim dim init_dim dim_mults
     = match rev dim_mults with
       | [] => first
       | m :: _ => (dim * m)%nat
       end.
Proof.
  cbv zeta. unfold uvit_in_out, uvit_mid_dim, uvit_dims. cbv zeta.
  set (first := match init_dim with Some v => v | None => dim end).
  set (outs := map (fun m => (dim * m)%nat) dim_mults).
  cbn [tl].
  assert (Hlen : length outs = length dim_mults) by apply length_map.
  assert (Hout : forall i, (i < length dim_mults)%nat ->
                   nth i outs 0%nat = (dim * nth i dim_mults 0)%nat).
  { intros i Hi. unfold outs.
    now rewrite (nth_map_in (fun m => (dim * m)%nat) dim_mults i 0%nat 0%nat). }
  split; [now rewrite length_combine_removelast|].
  split.
  { intros i Hi. rewrite nth_combine_removelast by lia. cbn [snd].
    now apply Hout. }
  split.
  { intros H. rewrite nth_combine_removelast by lia. reflexivity. }
  split.
  { intros i Hi. rewrite !nth_combine_removelast by lia. cbn [fst snd].
    replace (i + 1)%nat with (S i) by lia. reflexivity. }
  destruct (rev dim_mults) as [|m r] eqn:E.
  - assert (dim_mults = []).
    { apply (f_equal (@rev nat)) in E. now rewrite rev_involutive in E. }
    subst. reflexivity.
  - assert (Hd : dim_mults = rev r ++ [m]).
    { apply (f_equal (@rev nat)) in E. now rewrite rev_involutive in E. }
    unfold outs. rewrite Hd, map_app. cbn [map].
    rewrite app_comm_cons. apply last_last.
Qed.

Lemma uvit_channel_plan_witness :
  fst (nth (0 + 1) (uvit_in_out 64 None [1; 2; 4; 8]%nat) (0, 0)%nat)
  = snd (nth 0 (uvit_in_out 64 None [1; 2; 4; 8]%nat) (0, 0)%nat)
  /\ uvit_mid_dim 64 None [1; 2; 4; 8]%nat = 512%nat.
Proof.
  destruct (uvit_channel_plan 64 None [1; 2; 4; 8]%nat)
    as (_ & _ & _ & Hchain & Hmid).
  split; [apply Hchain; simpl; lia | exact Hmid].
Defined.

(** ** Reshaping *)

(** X24. The rearrangement at the head of [Downsample] fits exactly the
    tensors of rank four with an even height and an even width; it then
    returns a tensor [b; 4 * c; h / 2; w / 2] with as many elements as
    its input, every entry of which is an entry of the input, and every
    entry [i; k; y; z] of the input is found in it, at channel
    [4 * k + 2 * (y mod 2) + z mod 2] and position [y / 2; z / 2]. *)
Theorem space_to_depth_spec (x : tensor) :
  (space_to_depth x = None
   <-> forall b c h w, shape x = [b; c; h; w] ->
         (h mod 2 <> 0 \/ w mod 2 <> 0)%nat)
  /\ (forall out, space_to_depth x = Some out ->
        exists b c h w,
          shape x = [b; c; h; w]
          /\ shape out = [b; c * 4; h / 2; w / 2]%nat
          /\ numel (shape out) = numel (shape x)
          /\ (forall i k y z, (i < b)%nat -> (k < c)%nat -> (y < h)%nat ->
                (z < w)%nat ->
                in_shape [i; k * 4 + (y mod 2) * 2 + z mod 2; y / 2; z / 2]%nat
                         (shape out)
                /\ entry out [i; k * 4 + (y mod 2) * 2 + z mod 2; y / 2; z / 2]%nat
                   = entry x [i; k; y; z])
          /\ (forall i k y z, in_shape [i; k; y; z] (shape out) ->
                in_shape [i; k / 4; y * 2 + (k / 2) mod 2; z * 2 + k mod 2]%nat
                         (shape x)
                /\ entry out [i; k; y; z]
                   = entry x [i; k / 4; y * 2 + (k / 2) mod 2; z * 2 + k mod 2]%nat)).
Proof.
  unfold space_to_depth.
  destruct (shape x) as [|b [|c [|h [|w [|? ?]]]]] eqn:Hs;
    try (split; [split; [intros _ ? ? ? ? H; discriminate | reflexivity]
                | intros out H; discriminate]).
  destruct (Nat.eqb_spec (h mod 2) 0) as [Eh | Nh];
    destruct (Nat.eqb_spec (w mod 2) 0) as [Ew | Nw]; cbn [andb].
  2-4: split; [split; [intros _ b' c' h' w' H; injection H as <- <- <- <-; tauto
                      | reflexivity]
              | intros out H; discriminate].
  split.
  - split; [discriminate|]. intros H.
    destruct (H b c h w eq_refl); contradiction.
  - intros out H.
    match type of H with
    | Some ?t = Some _ => assert (Hout : out = t) by (now injection H)
    end.
    subst out. clear H. exists b, c, h, w.
    pose proof (Nat.div_mod_eq h 2) as Dh. pose proof (Nat.div_mod_eq w 2) as Dw.
    split; [reflexivity|]. split; [reflexivity|]. split.
    { assert (Hn : forall p q r t : nat,
                 numel [p; q; r; t] = (p * (q * (r * (t * 1))))%nat)
        by reflexivity.
      cbn [shape]. rewrite !Hn.
      assert (Hh : h = (2 * (h / 2))%nat) by lia.
      assert (Hw : w = (2 * (w / 2))%nat) by lia.
      rewrite Hh at 2. rewrite Hw at 2. ring. }
    split.
    + intros i k y z Hi Hk Hy Hz. cbn [shape entry].
      pose proof (Nat.div_mod_eq y 2) as Dy.
      pose proof (Nat.div_mod_eq z 2) as Dz.
      pose proof (Nat.mod_upper_bound y 2 ltac:(lia)) as By.
      pose proof (Nat.mod_upper_bound z 2 ltac:(lia)) as Bz.
      split.
      * repeat constructor; try lia;
          apply Nat.Div0.div_lt_upper_bound; lia.
      * assert (E1 : ((k * 4 + y mod 2 * 2 + z mod 2) / 4 = k)%nat).
        { symmetry. apply (Nat.div_unique _ 4 k (y mod 2 * 2 + z mod 2)); lia. }
        assert (E2 : (((k * 4 + y mod 2 * 2 + z mod 2) / 2) mod 2 = y mod 2)%nat).
        { assert (((k * 4 + y mod 2 * 2 + z mod 2) / 2 = k * 2 + y mod 2)%nat)
            as ->.
          { symmetry. apply (Nat.div_unique _ 2 _ (z mod 2)); lia. }
          symmetry. apply (Nat.mod_unique _ 2 k (y mod 2)); lia. }
        assert (E3 : ((k * 4 + y mod 2 * 2 + z mod 2) mod 2 = z mod 2)%nat).
        { symmetry. apply (Nat.mod_unique _ 2 (k * 2 + y mod 2) (z mod 2)); lia. }
        rewrite E1, E2, E3.
        replace (y / 2 * 2 + y mod 2)%nat with y by lia.
        replace (z / 2 * 2 + z mod 2)%nat with z by lia.
        reflexivity.
    + intros i k y z Hin. cbn [shape entry] in *.
      inversion Hin as [|? ? ? ? Hi Hin1]; subst.
      inversion Hin1 as [|? ? ? ? Hk Hin2]; subst.
      inversion Hin2 as [|? ? ? ? Hy Hin3]; subst.
      inversion Hin3 as [|? ? ? ? Hz _]; subst.
      change (fst (Nat.divmod h 1 0 1)) with (h / 2)%nat in *.
      change (fst (Nat.divmod w 1 0 1)) with (w / 2)%nat in *.
      split; [|reflexivity].
      pose proof (Nat.mod_upper_bound (k / 2) 2 ltac:(lia)).
      pose proof (Nat.mod_upper_bound k 2 ltac:(lia)).
      assert (k / 4 < c)%nat by (apply Nat.Div0.div_lt_upper_bound; lia).
      constructor; [lia|]. constructor; [lia|]. constructor; [lia|].
      constructor; [lia|]. constructor.
Qed.

Lemma space_to_depth_spec_witness :
  exists out,
    space_to_depth (tfull [2; 3; 8; 8]%nat 0.5) = Some out
    /\ shape out = [2; 12; 4; 4]%nat.
Proof.
  eexists. split; [reflexivity|].
  destruct (proj2 (space_to_depth_spec (tfull [2; 3; 8; 8]%nat 0.5)) _ eq_refl)
    as (b & c & h & w & Hx & Ho & _).
  injection Hx as <- <- <- <-. exact Ho.
Defined.

(** X25. The reshaping around the transformer of [UViT.forward] loses
    nothing: a tensor [b; c; h; w] becomes [h * w] tokens of width [c]
    per batch element, and turning these tokens back with the packed
    shape returns a tensor of the original shape with the original
    entries; tokens whose count is not [h * w] are refused. *)
Theorem tokens_round_trip (x : tensor) (b c h w : nat) :
  shape x = [b; c; h; w] ->
  exists tokens back : tensor,
    to_tokens x = Some (tokens, (h, w))
    /\ shape tokens = [b; h * w; c]%nat
    /\ from_tokens tokens (h, w) = Some back
    /\ shape back = shape x
    /\ (forall idx, in_shape idx (shape x) -> entry back idx = entry x idx)
    /\ (forall t b' n c', shape t = [b'; n; c'] -> n <> (h * w)%nat ->
          from_tokens t (h, w) = None).
Proof.
  intros Hx. unfold to_tokens. rewrite Hx.
  eexists _, _. split; [reflexivity|]. split; [reflexivity|].
  unfold from_tokens. cbn [shape]. rewrite Nat.eqb_refl.
  split; [reflexivity|]. split; [reflexivity|]. split.
  - intros idx Hin. cbn [entry].
    inversion Hin as [|i ? idx1 ? Hi Hin1]; subst.
    inversion Hin1 as [|k ? idx2 ? Hk Hin2]; subst.
    inversion Hin2 as [|y ? idx3 ? Hy Hin3]; subst.
    inversion Hin3 as [|z ? idx4 ? Hz Hin4]; subst.
    inversion Hin4; subst.
    assert (E1 : ((y * w + z) / w = y)%nat).
    { symmetry. apply (Nat.div_unique _ w y z); lia. }
    assert (E2 : ((y * w + z) mod w = z)%nat).
    { symmetry. apply (Nat.mod_unique _ w y z); lia. }
    now rewrite E1, E2.
  - intros t b' n c' Ht Hn. rewrite Ht.
    destruct (Nat.eqb_spec n (h * w)) as [E | _]; [contradiction | reflexivity].
Qed.

Lemma tokens_round_trip_witness :
  exists tokens back : tensor,
    to_tokens (tfull [2; 3; 4; 4]%nat 0.5) = Some (tokens, (4, 4)%nat)
    /\ from_tokens tokens (4, 4)%nat = Some back
    /\ shape back = [2; 3; 4; 4]%nat.
Proof.
  destruct (tokens_round_trip (tfull [2; 3; 4; 4]%nat 0.5) 2 3 4 4 eq_refl)
    as (tokens & back & Ht & _ & Hb & Hs & _).
  exists tokens, back. split; [exact Ht|]. split; [exact Hb | exact Hs].
Defined.
